(** * Session based load balancing: the host registry, the scraper and GetIPs

    A shallow embedding of the session policy of the loadbalance plugin
    (the session manager, the session load balancer, the parser of the
    configuration and the handler) and the properties of it that the
    specification states.

    Conventions of the embedding.
    - A [*Host] is a location of [heap]; the two maps of the manager hold
      locations, so a host that is in both maps is one shared object.
    - float32 and float64 are IEEE 754 binary32 and binary64, given by
      [spec_float] with precision 24 / 53 and round to nearest even.
    - [time.Now()] is an argument of every function that reads the clock.
    - Go ranges over a map in an unspecified order and [rand.Shuffle] draws
      random numbers: both are arguments (an order, a stream of draws).
    - A run time panic (index out of range, nil dereference) is the result
      [Panic]; a returned [error] is [Err]. *)

From Stdlib Require Import ZArith Lia Ascii String Floats.SpecFloat.
From stdpp Require Import gmap strings list sorting.

Local Open Scope Z_scope.

(** ** Results of fallible code *)

Inductive result (A : Type) : Type :=
  | Ok (a : A)
  | Err (msg : string)
  | Panic.
Arguments Ok {A} a.
Arguments Err {A} msg.
Arguments Panic {A}.

#[global] Instance result_ret : MRet result := λ A a, Ok a.

#[global] Instance result_bind : MBind result := λ A B k r,
  match r with
  | Ok a => k a
  | Err msg => Err msg
  | Panic => Panic
  end.

(** ** Floating point numbers *)

Module Float32.
Definition prec : Z := 24.
Definition emax : Z := 128.

Definition zero : spec_float := S754_zero false.
Definition one : spec_float := S754_finite false 8388608 (-23).

(** [x + y] on float32. *)
Definition add (x y : spec_float) : spec_float := SFadd prec emax x y.

(** [x < y] on float32. *)
Definition ltb (x y : spec_float) : bool := SFltb x y.

(** The conversion [float32(v)] of a float64 [v]. *)
Definition of_float64 (v : spec_float) : spec_float :=
  match v with
  | S754_finite s m e => binary_round prec emax s m e
  | _ => v
  end.

Definition is_nan (x : spec_float) : bool :=
  match x with S754_nan => true | _ => false end.

Definition valid (x : spec_float) : bool := valid_binary prec emax x.
End Float32.

Abbreviation float32 := spec_float (only parsing).
Abbreviation float64 := spec_float (only parsing).

(** ** Time *)

(** A [time.Time] is the number of nanoseconds since the Unix epoch, a
    [time.Duration] a number of nanoseconds in the range of int64. *)
Abbreviation Time := Z (only parsing).
Abbreviation Duration := Z (only parsing).

Definition Second : Z := 1000000000.
Definition minDuration : Z := - 2 ^ 63.
Definition maxDuration : Z := 2 ^ 63 - 1.

(** [time.Unix(sec, nsec)]. *)
Definition Unix (sec nsec : Z) : Z := sec * Second + nsec.

(** [t.Sub(u)]: the difference, saturated to the range of a Duration. *)
Definition Sub (t u : Z) : Z :=
  Z.max minDuration (Z.min maxDuration (t - u)).

(** [time.Since(t)] when the clock reads [now]. *)
Definition Since (now t : Z) : Z := Sub now t.

(** ** Hosts *)

(** A [netip.Addr] is given by the bytes of the address (4 or 16), which
    is what [AsSlice] returns; a [net.IP] is a slice of bytes. *)
Abbreviation Addr := (list N) (only parsing).
Abbreviation IP := (list N) (only parsing).

Definition AsSlice (a : list N) : list N := a.

Record Host : Type := mkHost {
  ip : list N;
  port : Z;
  base : spec_float;
  updated : Z;
  estimate : spec_float
}.

Definition set_port (v : Z) (h : Host) : Host :=
  mkHost (ip h) v (base h) (updated h) (estimate h).

Definition set_estimate (v : spec_float) (h : Host) : Host :=
  mkHost (ip h) (port h) (base h) (updated h) v.

(** [host.Update(value)], the clock reading [now]. *)
Definition Update (now : Z) (value : spec_float) (host : Host) : Host :=
  mkHost (ip host) (port host) value now value.

(** [host.Active(interval)], the clock reading [now]:
    [time.Since(host.updated).Seconds() < float64(interval)].  The duration
    is a count of nanoseconds and [interval] a count of seconds; the two are
    compared as exact numbers, d / 10^9 < interval, which is
    d < interval * 10^9 (the rounding of the float64 quotient is left out). *)
Definition Active (now : Z) (interval : Z) (host : Host) : bool :=
  Since now (updated host) <? interval * Second.

(** ** The session manager *)

Definition DefaultScrapeSeconds : Z := 15.
Definition DefaultTimeoutSeconds : Z := 30.

(** The struct [SessionManager].  [hosts] and [active] map an address to a
    [*Host]; [heap] holds the Host objects they point to. *)
Record SessionManager : Type := mkSessionManager {
  heap : gmap positive Host;
  scrapeMetric : string;
  scrapePort : Z;
  scrapeTimeoutSeconds : Z;
  scrapeIntervalSeconds : Z;
  hosts : gmap (list N) positive;
  active : gmap (list N) positive
}.

Definition set_heap (v : gmap positive Host) (sm : SessionManager) :=
  mkSessionManager v (scrapeMetric sm) (scrapePort sm)
    (scrapeTimeoutSeconds sm) (scrapeIntervalSeconds sm) (hosts sm) (active sm).

Definition set_scrapeMetric (v : string) (sm : SessionManager) :=
  mkSessionManager (heap sm) v (scrapePort sm)
    (scrapeTimeoutSeconds sm) (scrapeIntervalSeconds sm) (hosts sm) (active sm).

Definition set_scrapePort (v : Z) (sm : SessionManager) :=
  mkSessionManager (heap sm) (scrapeMetric sm) v
    (scrapeTimeoutSeconds sm) (scrapeIntervalSeconds sm) (hosts sm) (active sm).

Definition set_scrapeTimeoutSeconds (v : Z) (sm : SessionManager) :=
  mkSessionManager (heap sm) (scrapeMetric sm) (scrapePort sm)
    v (scrapeIntervalSeconds sm) (hosts sm) (active sm).

Definition set_hosts (v : gmap (list N) positive) (sm : SessionManager) :=
  mkSessionManager (heap sm) (scrapeMetric sm) (scrapePort sm)
    (scrapeTimeoutSeconds sm) (scrapeIntervalSeconds sm) v (active sm).

Definition set_active (v : gmap (list N) positive) (sm : SessionManager) :=
  mkSessionManager (heap sm) (scrapeMetric sm) (scrapePort sm)
    (scrapeTimeoutSeconds sm) (scrapeIntervalSeconds sm) (hosts sm) v.

(** Dereference of a [*Host]. *)
Definition load (sm : SessionManager) (p : positive) : result Host :=
  match heap sm !! p with
  | Some h => Ok h
  | None => Panic
  end.

Definition NewSessionManager : SessionManager :=
  mkSessionManager ∅ "" 0 DefaultTimeoutSeconds DefaultScrapeSeconds ∅ ∅.

(** [sm.Add(addr)]: a new Host object is allocated unless the address is
    registered already. *)
Definition Add (addr : list N) (sm : SessionManager) : SessionManager :=
  match hosts sm !! addr with
  | Some _ => sm
  | None =>
      let p := fresh (dom (heap sm)) in
      let host := mkHost addr 0 Float32.zero (Unix 0 0) Float32.zero in
      set_hosts (<[addr := p]> (hosts sm)) (set_heap (<[p := host]> (heap sm)) sm)
  end.

(** [sm.Start()]: every registered host gets the scrape port (the scrape
    loops it launches are the steps [ScrapeLoop_iter] below). *)
Definition Start (sm : SessionManager) : SessionManager :=
  set_heap
    (foldr (λ p hp, alter (set_port (scrapePort sm)) p hp) (heap sm)
       (map_to_list (hosts sm)).*2)
    sm.

(** ** Metric families

    The messages of the Prometheus client model (package dto), as its
    generated Go code declares them: message fields are pointers. *)

Inductive MetricType : Type :=
  | MetricType_COUNTER
  | MetricType_GAUGE
  | MetricType_SUMMARY
  | MetricType_UNTYPED
  | MetricType_HISTOGRAM
  | MetricType_GAUGE_HISTOGRAM.

Record Gauge : Type := mkGauge { Gauge_Value : option spec_float }.
Record Counter : Type := mkCounter { Counter_Value : option spec_float }.

Record Metric : Type := mkMetric {
  Metric_Gauge : option Gauge;
  Metric_Counter : option Counter
}.

Record MetricFamily : Type := mkMetricFamily {
  MetricFamily_Type : option MetricType;
  MetricFamily_Metric : list Metric
}.

(** The getters of the generated code; the type defaults to COUNTER. *)
Definition GetType (mf : MetricFamily) : MetricType :=
  default MetricType_COUNTER (MetricFamily_Type mf).
Definition GetMetric (mf : MetricFamily) : list Metric := MetricFamily_Metric mf.
Definition GetGauge (m : Metric) : option Gauge := Metric_Gauge m.
Definition GetCounter (m : Metric) : option Counter := Metric_Counter m.

(** [s[0]] on a slice. *)
Definition index0 {A} (s : list A) : result A :=
  match s with
  | x :: _ => Ok x
  | [] => Panic
  end.

(** [*p] on a pointer that may be nil. *)
Definition deref {A} (p : option A) : result A :=
  match p with
  | Some x => Ok x
  | None => Panic
  end.

Definition getMetricValue (mf : MetricFamily) : result spec_float :=
  match GetType mf with
  | MetricType_GAUGE =>
      m ← index0 (GetMetric mf);
      gauge ← deref (GetGauge m);
      deref (Gauge_Value gauge)
  | MetricType_COUNTER =>
      m ← index0 (GetMetric mf);
      counter ← deref (GetCounter m);
      deref (Counter_Value counter)
  | _ => Err "Unsupported metric type"
  end.

(** ** Scraping *)

(** What [client.Get] and the text parser deliver: an error of the
    request, or the metric families the parser returns together with its
    error, if any (the parser hands back the families it has read up to the
    error). *)
Inductive Response : Type :=
  | GetFailed
  | GetDone (metrics : gmap string MetricFamily) (parseErr : bool).

(** [sm.Scrape(host)].  The keys of [metrics] are distinct, so the loop
    over it finds the family named [scrapeMetric] at most once.  [now] is
    the clock at [host.Update]. *)
Definition Scrape (now : Z) (resp : Response) (host : positive)
    (sm : SessionManager) : result SessionManager :=
  h ← load sm host;
  match resp with
  | GetFailed => Ok sm
  | GetDone metrics parseErr =>
      match metrics !! scrapeMetric sm with
      | None => Ok sm
      | Some mf =>
          match getMetricValue mf with
          | Ok value =>
              Ok (set_heap (<[host := Update now (Float32.of_float64 value) h]> (heap sm)) sm)
          | Err _ => Ok sm
          | Panic => Panic
          end
      end
  end.

(** One turn of the loop of [sm.ScrapeLoop(host)]: the scrape, then the
    update of the active map with the clock reading [now']. *)
Definition ScrapeLoop_iter (now now' : Z) (resp : Response) (host : positive)
    (sm : SessionManager) : result SessionManager :=
  sm ← Scrape now resp host sm;
  h ← load sm host;
  if Active now' (scrapeTimeoutSeconds sm) h
  then Ok (set_active (<[ip h := host]> (active sm)) sm)
  else Ok (set_active (delete (ip h) (active sm)) sm).

(** ** Orders and shuffles *)

(** The order in which a [range] over a map visits its entries: any one;
    [o] picks, step by step, which of the remaining entries comes next. *)
Fixpoint range_order {A} (o : list nat) (l : list A) : list A :=
  match o with
  | [] => l
  | k :: o' =>
      let i := (k `mod` length l)%nat in
      match l !! i with
      | Some x => x :: range_order o' (delete i l)
      | None => l
      end
  end.

(** [s[i], s[j] = s[j], s[i]]. *)
Definition swap {A} (i j : nat) (s : list A) : list A :=
  match s !! i, s !! j with
  | Some x, Some y => <[i := y]> (<[j := x]> s)
  | _, _ => s
  end.

(** The loop of [rand.Shuffle(n, swap)], [for i := n - 1; i > 0; i--], with
    [j] drawn from [0..i]; [rnd i] is the number drawn at index [i]. *)
Fixpoint Shuffle_from {A} (rnd : nat → nat) (i : nat) (s : list A) : list A :=
  match i with
  | O => s
  | S i' => Shuffle_from rnd i' (swap i (rnd i `mod` S i)%nat s)
  end.

Definition Shuffle {A} (rnd : nat → nat) (s : list A) : list A :=
  Shuffle_from rnd (length s - 1)%nat s.

(** [sort.Sort] on the interface [byEstimated]: an insertion sort, which is
    what the library runs on a slice of fewer than 12 elements.  [insert_back]
    moves the element at the end of a sorted prefix, kept in reverse, to the
    left while it is less than its neighbour. *)
Section Sort.
Context {A : Type} (Less : A → A → bool).

Fixpoint insert_back (x : A) (rprefix : list A) : list A :=
  match rprefix with
  | [] => [x]
  | y :: r => if Less x y then y :: insert_back x r else x :: rprefix
  end.

Definition insertionSort (s : list A) : list A :=
  reverse (foldl (λ rprefix x, insert_back x rprefix) [] s).
End Sort.

(** [byEstimated.Less], on hosts read from the heap. *)
Definition byEstimated_Less (a b : positive * Host) : bool :=
  Float32.ltb (estimate a.2) (estimate b.2).

(** ** GetIPs *)

(** [sm.GetIPs()].  [o] and [o'] are the orders of the two ranges, [rnd]
    the draws of the shuffle. *)
Definition GetIPs (o o' : list nat) (rnd : nat → nat) (sm : SessionManager)
    : result (list (list N) * SessionManager) :=
  let active := range_order o (map_to_list (active sm)).*2 in
  if decide (length active = 0%nat) then
    let ips := AsSlice <$> range_order o' (map_to_list (hosts sm)).*1 in
    Ok (Shuffle rnd ips, sm)
  else
    loaded ← mapM (λ p, h ← load sm p; Ok (p, h)) active;
    let active := insertionSort byEstimated_Less loaded in
    let ips := (λ ph : positive * Host, AsSlice (ip ph.2)) <$> active in
    first ← index0 active;
    Ok (ips,
        set_heap
          (alter (λ h, set_estimate (Float32.add (estimate h) Float32.one) h) first.1
             (heap sm))
          sm).

(** ** The session load balancer *)

Definition sessionPolicy : string := "session".
Definition sessionTargetIps : string := "session_target_ips".
Definition sessionDomain : string := "session_domain".
Definition sessionScrapeMetric : string := "session_scrape_metric".
Definition sessionScrapePort : string := "session_scrape_port".
Definition sessionScrapeTimeout : string := "session_scrape_timeout".

Record SessionLoadBalancer : Type := mkSessionLoadBalancer {
  hostname : string;
  domain : string;
  manager : SessionManager
}.

Definition NewSessionLoadBalancer : SessionLoadBalancer :=
  mkSessionLoadBalancer "" "" NewSessionManager.

Definition set_manager (v : SessionManager) (s : SessionLoadBalancer) :=
  mkSessionLoadBalancer (hostname s) (domain s) v.

Definition set_domain (v : string) (s : SessionLoadBalancer) :=
  mkSessionLoadBalancer (hostname s) v (manager s).

Definition set_hostname (v : string) (s : SessionLoadBalancer) :=
  mkSessionLoadBalancer v (domain s) (manager s).

Definition dot : ascii := "."%char.

(** [strings.TrimSuffix(s, ".")]. *)
Fixpoint TrimSuffix_dot (s : string) : string :=
  match s with
  | EmptyString => EmptyString
  | String c s' =>
      match s' with
      | EmptyString => if Ascii.eqb c dot then EmptyString else s
      | String _ _ => String c (TrimSuffix_dot s')
      end
  end.

(** [strings.Split(s, ".")]. *)
Fixpoint Split_dot (s : string) : list string :=
  match s with
  | EmptyString => [EmptyString]
  | String c s' =>
      if Ascii.eqb c dot then EmptyString :: Split_dot s'
      else match Split_dot s' with
           | x :: r => String c x :: r
           | [] => [String c EmptyString]
           end
  end.

(** [strings.Join(names, ".")]. *)
Definition Join_dot (names : list string) : string := String.concat "." names.

Definition split (fqdn : string) : string * string :=
  let names := Split_dot (TrimSuffix_dot fqdn) in
  let hostname := if decide (0 < length names)%nat then default "" (names !! 0%nat) else "" in
  let domain := if decide (1 < length names)%nat then Join_dot (drop 1 names) else "" in
  (hostname, domain).

(** ** Serving a query *)

Definition TypeA : Z := 1.

(** What the handler reads of a request: [state.Name()], [state.QName()],
    [state.QType()], [state.QClass()]. *)
Record Request : Type := mkRequest {
  Name : string;
  QName : string;
  QType : Z;
  QClass : Z
}.

(** A resource record [dns.A]. *)
Record RR_A : Type := mkRR_A {
  Hdr_Name : string;
  Hdr_Rrtype : Z;
  Hdr_Class : Z;
  Hdr_Ttl : Z;
  rr_A : list N
}.

(** What [ServeSession] does with the request: it hands it to the next
    plugin ([plugin.NextOrFailure]), or writes a reply with the answers. *)
Inductive Served : Type :=
  | NextOrFailure
  | WriteMsg (answers : list RR_A).

Record LoadBalance : Type := mkLoadBalance {
  session : option SessionLoadBalancer
}.

Definition ServeSession (o o' : list nat) (rnd : nat → nat) (lb : LoadBalance)
    (state : Request) : result (Served * LoadBalance) :=
  let qname := Name state in
  let '(hostname', domain') := split qname in
  s ← deref (session lb);
  let hostnameMatch := bool_decide (hostname' = hostname s) in
  let domainMatch := bool_decide (domain s = "") || bool_decide (domain' = domain s) in
  if negb (QType state =? TypeA) then Ok (NextOrFailure, lb)
  else if hostnameMatch && domainMatch then
    '(ips, sm) ← GetIPs o o' rnd (manager s);
    let answers := (λ ip, mkRR_A (QName state) TypeA (QClass state) 1 ip) <$> ips in
    Ok (WriteMsg answers, mkLoadBalance (Some (set_manager sm s)))
  else Ok (NextOrFailure, lb).

(** ** Parsing the configuration *)

(** [strconv.ParseUint(s, 10, 32)] and [strconv.ParseInt(s, 10, 32)] of the
    Go library: the number and whether an error comes with it. *)
Inductive NumError : Type := ErrSyntax | ErrRange.

Definition digit (c : ascii) : option Z :=
  let n := Z.of_N (N_of_ascii c) in
  if (48 <=? n) && (n <=? 57) then Some (n - 48) else None.

Definition maxUint64 : Z := 2 ^ 64 - 1.
Definition maxVal32 : Z := 2 ^ 32 - 1.

Fixpoint ParseUint_digits (s : string) (n : Z) : Z * option NumError :=
  match s with
  | EmptyString => (n, None)
  | String c s' =>
      match digit c with
      | None => (0, Some ErrSyntax)
      | Some d =>
          if maxUint64 / 10 + 1 <=? n then (maxVal32, Some ErrRange)
          else
            let n1 := n * 10 + d in
            if maxVal32 <? n1 then (maxVal32, Some ErrRange)
            else ParseUint_digits s' n1
      end
  end.

Definition ParseUint (s : string) : Z * option NumError :=
  match s with
  | EmptyString => (0, Some ErrSyntax)
  | _ => ParseUint_digits s 0
  end.

Definition ParseInt (s : string) : Z * option NumError :=
  match s with
  | EmptyString => (0, Some ErrSyntax)
  | String c s' =>
      let neg := Ascii.eqb c "-" in
      let s := if Ascii.eqb c "+" || neg then s' else s in
      let '(un, err) := ParseUint s in
      match err with
      | Some ErrSyntax => (0, err)
      | _ =>
          let cutoff := 2 ^ 31 in
          if negb neg && (cutoff <=? un) then (cutoff - 1, Some ErrRange)
          else if neg && (cutoff <? un) then (- cutoff, Some ErrRange)
          else (if neg then - un else un, None)
      end
  end.

(** The conversions [uint16(i)] and [uint(i)] of an int64. *)
Definition uint16 (i : Z) : Z := i `mod` 2 ^ 16.
Definition uint (i : Z) : Z := i `mod` 2 ^ 64.

(** [slices.Contains]. *)
Definition Contains (l : list string) (key : string) : bool :=
  bool_decide (key ∈ l).

Definition checkSessionInputs (key : string) (args : list string) : result unit :=
  let singleInputKeys :=
    [sessionDomain; sessionScrapeMetric; sessionScrapePort; sessionScrapeTimeout] in
  let multipleInputKeys := [sessionTargetIps] in
  let numericInputKeys := [sessionScrapePort; sessionScrapeTimeout] in
  if Contains singleInputKeys key && negb (length args =? 1)%nat then
    Err ("Expected single parameters for " +:+ key)
  else if Contains multipleInputKeys key && (length args =? 0)%nat then
    Err ("Expected 1+ parameters for " +:+ key)
  else if Contains numericInputKeys key then
    value ← index0 args;
    match (ParseInt value).2 with
    | Some _ => Err ("Failed to parse " +:+ key +:+ ": " +:+ value +:+ " is not a number")
    | None => Ok ()
    end
  else Ok ().

(** [increment(ip)]: add one to the address, the last byte first. *)
Fixpoint increment_rev (r : list N) : list N :=
  match r with
  | [] => []
  | b :: r' =>
      let b' := ((b + 1) `mod` 256)%N in
      if (0 <? b')%N then b' :: r' else b' :: increment_rev r'
  end.

Definition increment (ip : list N) : list N :=
  reverse (increment_rev (reverse ip)).

(** [netip.AddrFromSlice]. *)
Definition AddrFromSlice (ip : list N) : option (list N) :=
  if decide (length ip = 4%nat ∨ length ip = 16%nat) then Some ip else None.

Record IPNet : Type := mkIPNet {
  IPNet_IP : list N;
  IPNet_Mask : list N
}.

Section Setup.
(** The parsers and the mask operations of the packages net and netip. *)
Variable ParseAddr : string → option (list N).
Variable ParseCIDR : string → option (list N * IPNet).
Variable IP_Mask : list N → list N → list N.
Variable IPNet_Contains : IPNet → list N → bool.

(** The loop of [expandNetworkPrefix]; it ends when the address leaves the
    network, [None] says that it has not ended within [fuel] turns. *)
Fixpoint expand_loop (fuel : nat) (ipv4Net : IPNet) (ip : list N)
    : option (list (list N)) :=
  match fuel with
  | O => None
  | S fuel' =>
      if IPNet_Contains ipv4Net ip then
        addrs ← expand_loop fuel' ipv4Net (increment ip);
        Some (match AddrFromSlice ip with
              | Some addr => addr :: addrs
              | None => addrs
              end)
      else Some []
  end.

Definition expandNetworkPrefix (fuel : nat) (prefix : string)
    : option (result (list (list N))) :=
  match ParseCIDR prefix with
  | None => Some (Err ("invalid CIDR address: " +:+ prefix))
  | Some (ipv4, ipv4Net) =>
      addrs ← expand_loop fuel ipv4Net (IP_Mask ipv4 (IPNet_Mask ipv4Net));
      Some (Ok addrs)
  end.

Fixpoint parseTargetIps (fuel : nat) (prefixes : list string)
    : option (result (list (list N))) :=
  match prefixes with
  | [] => Some (Ok [])
  | prefix :: rest =>
      match ParseAddr prefix with
      | Some ip =>
          r ← parseTargetIps fuel rest;
          Some (addrs ← r; Ok (ip :: addrs))
      | None =>
          r ← expandNetworkPrefix fuel prefix;
          match r with
          | Ok ips =>
              r' ← parseTargetIps fuel rest;
              Some (addrs ← r'; Ok (ips ++ addrs))
          | Err msg => Some (Err msg)
          | Panic => Some Panic
          end
      end
  end.

(** The body of the loop over the lines of the block: [key] is [c.Val()],
    [args] is [c.RemainingArgs()].  What [checkSessionInputs] returns is
    dropped, as in the source. *)
Definition parseSession_line (fuel : nat) (key : string) (args : list string)
    (session : SessionLoadBalancer) : option (result SessionLoadBalancer) :=
  match checkSessionInputs key args with
  | Panic => Some Panic
  | _ =>
    match index0 args with
    | Panic => Some Panic
    | Err msg => Some (Err msg)
    | Ok value =>
      let i := (ParseInt value).1 in
      if decide (key = sessionTargetIps) then
        r ← parseTargetIps fuel args;
        Some (ips ← r;
              Ok (set_manager (foldl (λ sm ip, Add ip sm) (manager session) ips) session))
      else if decide (key = sessionDomain) then
        Some (Ok (set_domain value session))
      else if decide (key = sessionScrapeMetric) then
        Some (Ok (set_manager (set_scrapeMetric value (manager session)) session))
      else if decide (key = sessionScrapePort) then
        Some (Ok (set_manager (set_scrapePort (uint16 i) (manager session)) session))
      else if decide (key = sessionScrapeTimeout) then
        Some (Ok (set_manager (set_scrapeTimeoutSeconds (uint i) (manager session)) session))
      else Some (Err ("Unknown parameter: " +:+ key))
    end
  end.

Fixpoint parseSession_block (fuel : nat) (block : list (string * list string))
    (session : SessionLoadBalancer) : option (result SessionLoadBalancer) :=
  match block with
  | [] => Some (Ok session)
  | (key, args) :: block' =>
      r ← parseSession_line fuel key args session;
      match r with
      | Ok session' => parseSession_block fuel block' session'
      | Err msg => Some (Err msg)
      | Panic => Some Panic
      end
  end.

(** [parseSession(c, args)]; [block] holds the lines that [c.NextBlock()]
    walks through. *)
Definition parseSession (fuel : nat) (args : list string)
    (block : list (string * list string)) : option (result SessionLoadBalancer) :=
  if negb (length args =? 2)%nat then
    Some (Err "Expected 'session' and hostname parameters.")
  else
    let session := set_hostname (default "" (args !! 1%nat)) NewSessionLoadBalancer in
    r ← parseSession_block fuel block session;
    Some (session ← r; Ok (set_manager (Start (manager session)) session)).
End Setup.

(** * Executions, invariants and example states *)

(** ** Executions *)

(** The operations that read or write the manager once it is set up: the
    registration of an address, the start, one turn of the scrape loop of a
    host, and one call of GetIPs.  An execution is a sequence of them, in
    the order in which they take effect. *)
Inductive op : Type :=
  | OpAdd (addr : list N)
  | OpStart
  | OpScrapeLoop (now now' : Z) (resp : Response) (host : positive)
  | OpGetIPs (o o' : list nat) (rnd : nat → nat).

Definition step (c : op) (sm : SessionManager) : result SessionManager :=
  match c with
  | OpAdd addr => Ok (Add addr sm)
  | OpStart => Ok (Start sm)
  | OpScrapeLoop now now' resp host => ScrapeLoop_iter now now' resp host sm
  | OpGetIPs o o' rnd => '(_, sm') ← GetIPs o o' rnd sm; Ok sm'
  end.

Fixpoint run (cs : list op) (sm : SessionManager) : result SessionManager :=
  match cs with
  | [] => Ok sm
  | c :: cs' => sm' ← step c sm; run cs' sm'
  end.

Definition state_after (cs : list op) (sm : SessionManager) : SessionManager :=
  match run cs sm with
  | Ok sm' => sm'
  | _ => sm
  end.



(** ** Invariants of the manager *)

(** Every registered address points to a Host object that carries this
    address, the active map is a part of the map of all hosts, and every
    Host object is the one of a registered address. *)
Definition wf (sm : SessionManager) : Prop :=
  map_Forall (λ a p, ip <$> heap sm !! p = Some a) (hosts sm) ∧
  map_Forall (λ a p, hosts sm !! a = Some p) (active sm) ∧
  map_Forall (λ p h, hosts sm !! ip h = Some p) (heap sm).

#[global] Instance wf_dec sm : Decision (wf sm).
Proof. unfold wf. apply _. Defined.

(** The estimates of the hosts stay valid floats in every execution. *)
Definition valid_estimates (sm : SessionManager) : Prop :=
  map_Forall (λ _ h, Float32.valid (estimate h) = true) (heap sm).

(** ** Predicates used in the statements *)

(** The active hosts as GetIPs reads them: the pointers of the active map,
    each with the Host object it points to. *)
Definition snapshot_of (sm : SessionManager) (l : list (positive * Host)) : Prop :=
  l.*1 ≡ₚ (map_to_list (active sm)).*2 ∧
  Forall (λ ph, heap sm !! ph.1 = Some ph.2) l.

Definition no_nan_active (sm : SessionManager) : Prop :=
  map_Forall (λ _ p, Float32.is_nan <$> (estimate <$> heap sm !! p) = Some false)
    (active sm).

#[global] Instance no_nan_active_dec sm : Decision (no_nan_active sm).
Proof. unfold no_nan_active. apply _. Defined.



(** The scrape delivers the value [v]: the request succeeds, the response
    holds the family named [scrapeMetric] and [getMetricValue] returns [v]. *)
Definition scraped (sm : SessionManager) (resp : Response) (v : spec_float) : Prop :=
  ∃ metrics parseErr mf,
    resp = GetDone metrics parseErr ∧
    metrics !! scrapeMetric sm = Some mf ∧
    getMetricValue mf = Ok v.

(** The value that the first sample of a family carries for the type of
    the family. *)
Definition sample_value (t : MetricType) (m : Metric) : option spec_float :=
  match t with
  | MetricType_GAUGE => g ← GetGauge m; Gauge_Value g
  | MetricType_COUNTER => c ← GetCounter m; Counter_Value c
  | _ => None
  end.


(** The number that the bytes of an address spell, the first byte the
    most significant. *)
Definition be_value (ip : list N) : N := foldl (λ acc b, acc * 256 + b)%N 0%N ip.

(** The same for bytes in reverse, the first byte the least significant. *)
Definition le_value (r : list N) : N := foldr (λ b acc, b + 256 * acc)%N 0%N r.

(** The [k]-th address after [ip]. *)
Definition nth_address (ip : list N) (k : nat) : list N := Nat.iter k increment ip.

(** A manager as the parser builds it before the start: no host is
    active and every Host object is as Add has made it. *)
Definition pristine (sm : SessionManager) : Prop :=
  active sm = ∅ ∧
  map_Forall
    (λ _ h, port h = 0 ∧ base h = Float32.zero ∧
            estimate h = Float32.zero ∧ updated h = Unix 0 0)
    (heap sm).

(** The port is a uint16; the timeout is a uint that comes from an int32:
    it is below 2^31, or, from a negative number, within 2^31 of 2^64. *)
Definition config_in_range (sm : SessionManager) : Prop :=
  0 ≤ scrapePort sm < 2 ^ 16 ∧
  (0 ≤ scrapeTimeoutSeconds sm < 2 ^ 31 ∨
   2 ^ 64 - 2 ^ 31 ≤ scrapeTimeoutSeconds sm < 2 ^ 64).

(** Whether a name holds a dot. *)
Fixpoint has_dot (s : string) : bool :=
  match s with
  | EmptyString => false
  | String c s' => Ascii.eqb c dot || has_dot s'
  end.

(** A record of type A for the name and class of the query, with the
    time to live of one second. *)
Definition answers_query (state : Request) (rr : RR_A) : Prop :=
  Hdr_Name rr = QName state ∧ Hdr_Rrtype rr = TypeA ∧
  Hdr_Class rr = QClass state ∧ Hdr_Ttl rr = 1.

(** ** Example states *)

Definition float64_of_Z (n : Z) : spec_float := binary_normalize 53 1024 n 0 false.

(** A response with one family, a gauge with one sample of value [v]. *)
Definition gauge_response (name : string) (v : spec_float) : Response :=
  GetDone
    {[ name := mkMetricFamily (Some MetricType_GAUGE)
                 [mkMetric (Some (mkGauge (Some v))) None] ]}
    false.

(** A response whose body fails to parse after the metric has been read:
    the parser returns the family together with its error. *)
Definition truncated_response : Response :=
  GetDone
    {[ "conns" := mkMetricFamily (Some MetricType_GAUGE)
                    [mkMetric (Some (mkGauge (Some (float64_of_Z 5)))) None] ]}
    true.

Definition addr1 : list N := [10; 0; 0; 1]%N.
Definition addr2 : list N := [10; 0; 0; 2]%N.
Definition addr3 : list N := [10; 0; 0; 3]%N.

Definition sm_registered : SessionManager :=
  Add addr3 (Add addr2 (Add addr1 (set_scrapeMetric "conns" NewSessionManager))).

(** Three hosts scraped at 100 s, with 3, 1 and 2 connections. *)
Definition sm_three : SessionManager :=
  state_after
    [OpScrapeLoop (Unix 100 0) (Unix 100 1) (gauge_response "conns" (float64_of_Z 3)) 1;
     OpScrapeLoop (Unix 100 0) (Unix 100 1) (gauge_response "conns" (float64_of_Z 1)) 2;
     OpScrapeLoop (Unix 100 0) (Unix 100 1) (gauge_response "conns" (float64_of_Z 2)) 3]
    sm_registered.

(** The same, the second host reporting NaN and the third 1 connection. *)
Definition sm_nan : SessionManager :=
  state_after
    [OpScrapeLoop (Unix 100 0) (Unix 100 1) (gauge_response "conns" (float64_of_Z 3)) 1;
     OpScrapeLoop (Unix 100 0) (Unix 100 1) (gauge_response "conns" S754_nan) 2;
     OpScrapeLoop (Unix 100 0) (Unix 100 1) (gauge_response "conns" (float64_of_Z 1)) 3]
    sm_registered.




(** A load balancer for the name www.example.org, with the three hosts. *)
Definition lb_three : LoadBalance :=
  mkLoadBalance (Some (mkSessionLoadBalancer "www" "example.org" sm_three)).

Definition TypeAAAA : Z := 28.

(** A parser of addresses that knows the three addresses of the examples
    (as netip.ParseAddr reads them), and no network prefix. *)
Definition example_ParseAddr (s : string) : option (list N) :=
  if decide (s = "10.0.0.1") then Some addr1
  else if decide (s = "10.0.0.2") then Some addr2
  else if decide (s = "10.0.0.3") then Some addr3
  else None.

Definition example_parseSession :=
  parseSession example_ParseAddr (λ _, None) (λ ip _, ip) (λ _ _, false) 0.

(** A network of the addresses whose first three bytes are 10.0.0 and
    whose last byte is below 4 (10.0.0.0/30), for the examples. *)
Definition example_Contains (_ : IPNet) (ip : list N) : bool :=
  match ip with
  | [a; b; c; d] => bool_decide (a = 10 ∧ b = 0 ∧ c = 0 ∧ d < 4)%N
  | _ => false
  end.

(** ** The steps of a rounding *)

(** The last step of the rounding: the mantissa [m2] at the exponent [e1]
    is shifted once more if rounding up has made it too long. *)
Definition finish (s : bool) (m2 e1 : Z) : spec_float :=
  let n2 := Z.max 0 (fexp Float32.prec Float32.emax (Zdigits2 m2 + e1) - e1) in
  match m2 / 2 ^ n2 with
  | Z0 => S754_zero s
  | Zpos m3 =>
      if e1 + n2 <=? Float32.emax - Float32.prec
      then S754_finite s m3 (e1 + n2) else S754_infinity s
  | Zneg _ => S754_nan
  end.

(** What the rounding returns for the mantissa [m2] at the exponent [e1]:
    a zero, or the float of a canonical mantissa [m3] and exponent [e3]
    (an infinity if [e3] is too large). *)
Definition rounded (s : bool) (m2 e1 : Z) (r : spec_float) : Prop :=
  (m2 = 0 ∧ r = S754_zero s) ∨
  ∃ m3 e3,
    r = (if e3 <=? 104 then S754_finite s m3 e3 else S754_infinity s) ∧
    fexp Float32.prec Float32.emax (Zdigits2 (Zpos m3) + e3) = e3 ∧
    ((e3 = e1 ∧ Zpos m3 = m2) ∨ (e3 = e1 + 1 ∧ Zpos m3 = 2 ^ 23 ∧ m2 = 2 ^ 24)).

(** * Properties *)

(** ** Orders, shuffles and the sort rearrange a slice *)

Lemma range_order_Permutation {A} (o : list nat) (l : list A) :
  range_order o l ≡ₚ l.
Proof.
  revert l. induction o as [|k o IH]; intros l; simpl; [done|].
  destruct (l !! (k `mod` length l)%nat) as [x|] eqn:Hx; [|done].
  rewrite IH. symmetry. by apply delete_Permutation.
Qed.

Lemma swap_Permutation {A} (i j : nat) (s : list A) : swap i j s ≡ₚ s.
Proof.
  unfold swap.
  destruct (s !! i) as [x|] eqn:Hi; [|done].
  destruct (s !! j) as [y|] eqn:Hj; [|done].
  by apply Permutation_insert_swap.
Qed.

Lemma Shuffle_from_Permutation {A} (rnd : nat → nat) (i : nat) (s : list A) :
  Shuffle_from rnd i s ≡ₚ s.
Proof.
  revert s. induction i as [|i IH]; intros s; simpl; [done|].
  rewrite IH. apply swap_Permutation.
Qed.

Lemma Shuffle_Permutation {A} (rnd : nat → nat) (s : list A) : Shuffle rnd s ≡ₚ s.
Proof. apply Shuffle_from_Permutation. Qed.

(** ** The insertion sort orders its argument *)

Section SortFacts.
Context {A : Type} (Less : A → A → bool) (P : A → Prop).

Hypothesis Less_asym : ∀ x y, Less x y = true → Less y x = false.
Hypothesis Less_negtrans : ∀ x y z,
  P y → Less x y = false → Less y z = false → Less x z = false.

Lemma insert_back_Permutation (x : A) (r : list A) :
  insert_back Less x r ≡ₚ x :: r.
Proof.
  induction r as [|y r IH]; simpl; [done|].
  destruct (Less x y); [|done].
  by rewrite IH, Permutation_swap.
Qed.

Lemma insertionSort_Permutation (s : list A) : insertionSort Less s ≡ₚ s.
Proof.
  unfold insertionSort. rewrite reverse_Permutation.
  assert (H : ∀ acc, foldl (λ rprefix x, insert_back Less x rprefix) acc s ≡ₚ s ++ acc).
  { induction s as [|x s IH]; intros acc; simpl; [done|].
    rewrite IH, insert_back_Permutation. by rewrite Permutation_middle. }
  by rewrite H, app_nil_r.
Qed.




End SortFacts.

(** ** The order of float32 *)



(** ** Well-formed managers *)

Lemma wf_hosts_lookup sm a p :
  wf sm → hosts sm !! a = Some p → ∃ h, heap sm !! p = Some h ∧ ip h = a.
Proof.
  intros [Hh _] Hp. specialize (Hh a p Hp). simpl in Hh.
  destruct (heap sm !! p) as [h|]; simplify_eq/=. eauto.
Qed.

Lemma wf_active_lookup sm a p :
  wf sm → active sm !! a = Some p → ∃ h, heap sm !! p = Some h ∧ ip h = a.
Proof.
  intros Hwf Hp. eapply wf_hosts_lookup; [done|].
  destruct Hwf as (_ & Ha & _). by apply Ha.
Qed.

Lemma wf_hosts_inj sm a b p :
  wf sm → hosts sm !! a = Some p → hosts sm !! b = Some p → a = b.
Proof.
  intros Hwf Ha Hb.
  destruct (wf_hosts_lookup _ _ _ Hwf Ha) as (h & Hh & <-).
  destruct (wf_hosts_lookup _ _ _ Hwf Hb) as (h' & Hh' & <-).
  congruence.
Qed.

Lemma wf_NewSessionManager : wf NewSessionManager.
Proof. split_and!; apply map_Forall_empty. Qed.

Lemma wf_Add addr sm : wf sm → wf (Add addr sm).
Proof.
  intros Hwf. unfold Add. destruct (hosts sm !! addr) as [q|] eqn:Hq; [done|].
  set (p := fresh (dom (heap sm))).
  assert (Hp : heap sm !! p = None).
  { apply not_elem_of_dom. apply is_fresh. }
  destruct Hwf as (Hh & Ha & Hc). split_and!; simpl.
  - apply map_Forall_insert; [done|]. split.
    + by rewrite lookup_insert_eq.
    + intros a q Haq. specialize (Hh a q Haq). simpl in Hh.
      rewrite lookup_insert_ne; [done|]. intros <-. by rewrite Hp in Hh.
  - intros a q Haq. specialize (Ha a q Haq). simpl in Ha.
    rewrite lookup_insert_ne; [done|]. intros <-. congruence.
  - apply map_Forall_insert; [done|]. split.
    + simpl. by rewrite lookup_insert_eq.
    + intros q h Hqh. specialize (Hc q h Hqh). simpl in *.
      rewrite lookup_insert_ne; [done|]. intros Heq. congruence.
Qed.

(** ** Reading the hosts of a slice of pointers *)

Lemma mapM_load sm (l : list positive) :
  Forall (λ p, is_Some (heap sm !! p)) l →
  ∃ l', mapM (λ p, h ← load sm p; Ok (p, h)) l = Ok l' ∧
        l'.*1 = l ∧ Forall (λ ph, heap sm !! ph.1 = Some ph.2) l'.
Proof.
  induction 1 as [|p l [h Hh] _ (l' & Hl' & Hfst & Hall)].
  { by exists []. }
  exists ((p, h) :: l').
  change (mapM ?f (p :: l)) with (y ← f p; k ← mapM f l; mret (y :: k)).
  rewrite Hl'. unfold load. rewrite Hh. simpl.
  split_and!; [done|by f_equal|by constructor].
Qed.

(** ** GetIPs with active hosts *)

Lemma active_addresses sm (l : list (positive * Host)) :
  wf sm → snapshot_of sm l →
  (λ ph : positive * Host, AsSlice (ip ph.2)) <$> l
    ≡ₚ AsSlice <$> (map_to_list (active sm)).*1.
Proof.
  intros Hwf [Hperm Hall].
  set (g := λ p : positive, default [] (ip <$> heap sm !! p)).
  trans (g <$> l.*1).
  { apply reflexive_eq. rewrite <-list_fmap_compose. apply Forall_fmap_ext.
    eapply Forall_impl; [exact Hall|]. intros [p h] Hp; simpl in *.
    unfold g. by rewrite Hp. }
  rewrite Hperm. apply reflexive_eq.
  rewrite <-!list_fmap_compose. apply Forall_fmap_ext, Forall_forall.
  intros [a p] Hap%elem_of_map_to_list. simpl.
  destruct (wf_active_lookup _ _ _ Hwf Hap) as (h & Hh & <-).
  unfold g. by rewrite Hh.
Qed.


(** What GetIPs computes when some host is active, whatever the estimates
    are: the answer lists the hosts of the sorted snapshot, and the host at
    its head gets [estimate + 1]. *)
Lemma GetIPs_active_run o o' rnd sm :
  wf sm → active sm ≠ ∅ →
  ∃ loaded first rest,
    snapshot_of sm loaded ∧
    insertionSort byEstimated_Less loaded = first :: rest ∧
    GetIPs o o' rnd sm =
      Ok ((λ ph : positive * Host, AsSlice (ip ph.2)) <$> (first :: rest),
          set_heap
            (<[first.1 := set_estimate (Float32.add (estimate first.2) Float32.one) first.2]>
               (heap sm)) sm).
Proof.
  intros Hwf Hne. unfold GetIPs.
  set (act := range_order o (map_to_list (active sm)).*2).
  assert (Hact : act ≡ₚ (map_to_list (active sm)).*2) by apply range_order_Permutation.
  destruct (decide (length act = 0%nat)) as [Hlen|Hlen].
  { exfalso. apply Hne, map_to_list_empty_iff.
    rewrite Hact, length_fmap in Hlen. by apply nil_length_inv. }
  destruct (mapM_load sm act) as (loaded & -> & Hfst & Hall).
  { apply Forall_forall. intros p Hp. rewrite Hact in Hp.
    apply list_elem_of_fmap in Hp as ([a q] & -> & Haq%elem_of_map_to_list).
    destruct (wf_active_lookup _ _ _ Hwf Haq) as (h & Hh & _). by exists h. }
  simpl.
  assert (Hsnap : snapshot_of sm loaded) by (split; [by rewrite Hfst|done]).
  pose proof (insertionSort_Permutation byEstimated_Less loaded) as Hsort.
  destruct (insertionSort byEstimated_Less loaded) as [|first rest] eqn:Hs.
  { apply Permutation_nil_l in Hsort. subst loaded. simpl in Hfst.
    rewrite <-Hfst in Hlen. done. }
  exists loaded, first, rest. split_and!; [done..|]. simpl. do 3 f_equal.
  assert (Hf : heap sm !! first.1 = Some first.2).
  { destruct Hsnap as [_ Hall']. rewrite Forall_forall in Hall'.
    apply Hall'. rewrite <-Hsort. left. }
  apply map_eq. intros q. rewrite lookup_alter, lookup_insert.
  case_decide; subst; by rewrite ?Hf.
Qed.





(** ** Scraping a host *)

Lemma Scrape_cases now resp p sm sm' :
  Scrape now resp p sm = Ok sm' →
  ∃ h, heap sm !! p = Some h ∧
    ((∃ v, scraped sm resp v ∧
           sm' = set_heap (<[p := Update now (Float32.of_float64 v) h]> (heap sm)) sm) ∨
     ((∀ v, ¬ scraped sm resp v) ∧ sm' = sm)).
Proof.
  unfold Scrape, load. destruct (heap sm !! p) as [h|] eqn:Hh; [|done]. simpl.
  intros H. exists h. split; [done|].
  destruct resp as [|metrics parseErr].
  { right. split; [|congruence]. intros v (? & ? & ? & ? & _). done. }
  destruct (metrics !! scrapeMetric sm) as [mf|] eqn:Hmf.
  - destruct (getMetricValue mf) as [v|msg|] eqn:Hv; [| |done].
    + left. exists v. split; [|congruence]. by exists metrics, parseErr, mf.
    + right. split; [|congruence].
      intros v (? & ? & ? & ? & ? & ?). simplify_eq. congruence.
  - right. split; [|congruence].
    intros v (? & ? & ? & ? & ? & ?). simplify_eq.
Qed.



(** A failed scrape leaves the manager, and so every Host object, as it
    is: a failed request, a response without the metric, a family of a type
    that is neither gauge nor counter. *)
Lemma Scrape_failure now resp p sm sm' :
  Scrape now resp p sm = Ok sm' → (∀ v, ¬ scraped sm resp v) → sm' = sm.
Proof.
  intros (h & _ & [(v & Hv & _)|[_ ->]])%Scrape_cases Hno; [|done].
  by destruct (Hno v).
Qed.

Lemma Scrape_failed_request now p sm h :
  heap sm !! p = Some h → Scrape now GetFailed p sm = Ok sm.
Proof. intros Hh. unfold Scrape, load. by rewrite Hh. Qed.

Lemma Scrape_metric_absent now metrics p sm h :
  heap sm !! p = Some h → metrics !! scrapeMetric sm = None →
  Scrape now (GetDone metrics false) p sm = Ok sm.
Proof. intros Hh Hm. unfold Scrape, load. rewrite Hh. simpl. by rewrite Hm. Qed.

Lemma Scrape_unsupported_type now metrics parseErr mf p sm h :
  heap sm !! p = Some h → metrics !! scrapeMetric sm = Some mf →
  GetType mf ≠ MetricType_GAUGE → GetType mf ≠ MetricType_COUNTER →
  Scrape now (GetDone metrics parseErr) p sm = Ok sm.
Proof.
  intros Hh Hm Hg Hc. unfold Scrape, load. rewrite Hh. simpl. rewrite Hm.
  unfold getMetricValue. by destruct (GetType mf).
Qed.

(** C5, the failing input.  The body of the response does not parse, yet
    the scrape writes the value 5 and the time 200 s into the host, whose
    fields were 3 and 100 s before. *)
Theorem Scrape_parse_error_updates :
  ∃ h sm' h',
    heap sm_three !! 1%positive = Some h ∧
    Scrape (Unix 200 0) truncated_response 1 sm_three = Ok sm' ∧
    heap sm' !! 1%positive = Some h' ∧
    estimate h = Float32.of_float64 (float64_of_Z 3) ∧ updated h = Unix 100 0 ∧
    estimate h' = Float32.of_float64 (float64_of_Z 5) ∧ updated h' = Unix 200 0 ∧
    base h' ≠ base h.
Proof.
  eexists _, _, _. split_and!; try (vm_compute; reflexivity).
  vm_compute. discriminate.
Qed.

(** ** The active set after a turn of the scrape loop *)

(** A host that has just been registered carries the time of the epoch. *)
Lemma Add_new_host addr sm :
  hosts sm !! addr = None →
  ∃ p, heap sm !! p = None ∧
       hosts (Add addr sm) !! addr = Some p ∧
       heap (Add addr sm) !! p =
         Some (mkHost addr 0 Float32.zero (Unix 0 0) Float32.zero) ∧
       active (Add addr sm) = active sm.
Proof.
  intros Hnone. unfold Add. rewrite Hnone. exists (fresh (dom (heap sm))).
  simpl. rewrite !lookup_insert_eq. split_and!; try done.
  apply not_elem_of_dom, is_fresh.
Qed.




(** ** GetIPs without active hosts *)








(** ** getMetricValue *)

(** C9, as amended.  For a family of type gauge or counter whose list of
    samples is not empty and whose first sample carries a value of this
    type, getMetricValue returns this value, without error.  The accesses
    are not guarded: with no sample, or with a first sample that lacks the
    value, the call panics; it does not return an error. *)
Theorem getMetricValue_first_sample mf :
  GetType mf = MetricType_GAUGE ∨ GetType mf = MetricType_COUNTER →
  (∀ m rest v,
     GetMetric mf = m :: rest → sample_value (GetType mf) m = Some v →
     getMetricValue mf = Ok v) ∧
  (GetMetric mf = [] → getMetricValue mf = Panic) ∧
  (∀ m rest,
     GetMetric mf = m :: rest → sample_value (GetType mf) m = None →
     getMetricValue mf = Panic).
Proof.
  intros Ht. unfold getMetricValue, sample_value. split_and!.
  - intros m rest v Hm Hv. rewrite Hm. simpl.
    destruct Ht as [Ht|Ht]; rewrite Ht in *.
    + destruct (GetGauge m) as [[[w|]]|]; by simplify_eq/=.
    + destruct (GetCounter m) as [[[w|]]|]; by simplify_eq/=.
  - intros ->. by destruct Ht as [-> | ->].
  - intros m rest Hm Hv. rewrite Hm. simpl.
    destruct Ht as [Ht|Ht]; rewrite Ht in *.
    + destruct (GetGauge m) as [[[w|]]|]; by simplify_eq/=.
    + destruct (GetCounter m) as [[[w|]]|]; by simplify_eq/=.
Qed.

Lemma getMetricValue_first_sample_witness :
  let mf := mkMetricFamily (Some MetricType_COUNTER)
              [mkMetric None (Some (mkCounter (Some (float64_of_Z 4))))] in
  (∀ m rest v,
     GetMetric mf = m :: rest → sample_value (GetType mf) m = Some v →
     getMetricValue mf = Ok v) ∧
  (GetMetric mf = [] → getMetricValue mf = Panic) ∧
  (∀ m rest,
     GetMetric mf = m :: rest → sample_value (GetType mf) m = None →
     getMetricValue mf = Panic).
Proof.
  intros mf. apply (getMetricValue_first_sample mf). right. reflexivity.
Defined.

(** C9, counterexample.  A family of type gauge with one sample, which
    carries no gauge: the list of samples is not empty, and the call
    panics. *)
Lemma getMetricValue_counterexample :
  let mf := mkMetricFamily (Some MetricType_GAUGE) [mkMetric None None] in
  GetType mf = MetricType_GAUGE ∧ GetMetric mf ≠ [] ∧ getMetricValue mf = Panic.
Proof. by split_and!. Qed.

(** ** ServeSession *)

(** C10.  A query whose type is not A is handed to the next plugin,
    whether or not the name matches, and the load balancer stays as it is;
    a reply is written, and GetIPs is called, for queries of type A only. *)
Theorem ServeSession_not_A o o' rnd lb s state :
  session lb = Some s →
  (QType state ≠ TypeA →
   ServeSession o o' rnd lb state = Ok (NextOrFailure, lb)) ∧
  (∀ answers lb',
     ServeSession o o' rnd lb state = Ok (WriteMsg answers, lb') →
     QType state = TypeA ∧
     ∃ ips sm', GetIPs o o' rnd (manager s) = Ok (ips, sm') ∧
                lb' = mkLoadBalance (Some (set_manager sm' s))).
Proof.
  intros Hs. unfold ServeSession. destruct (split (Name state)) as [hn dn].
  rewrite Hs. simpl. split.
  - intros Hq. apply Z.eqb_neq in Hq. by rewrite Hq.
  - intros answers lb'. destruct (Z.eqb_spec (QType state) TypeA) as [Heq|]; [|done].
    simpl. case_match; [|done].
    destruct (GetIPs o o' rnd (manager s)) as [[ips sm']| |]; [|done..].
    simpl. intros [= <- <-]. eauto.
Qed.

Lemma ServeSession_not_A_witness :
  ServeSession [] [] (λ i, i) lb_three
    (mkRequest "www.example.org." "www.example.org." TypeAAAA 1)
  = Ok (NextOrFailure, lb_three).
Proof.
  apply (ServeSession_not_A [] [] (λ i, i) lb_three
           (mkSessionLoadBalancer "www" "example.org" sm_three)
           (mkRequest "www.example.org." "www.example.org." TypeAAAA 1)).
  - reflexivity.
  - vm_compute. discriminate.
Defined.

Example split_fqdn : split "www.example.org." = ("www", "example.org").
Proof. reflexivity. Qed.

Example ServeSession_A :
  ∃ lb', ServeSession [] [] (λ i, i) lb_three
           (mkRequest "www.example.org." "www.example.org." TypeA 1)
         = Ok (WriteMsg [mkRR_A "www.example.org." TypeA 1 1 addr2;
                         mkRR_A "www.example.org." TypeA 1 1 addr3;
                         mkRR_A "www.example.org." TypeA 1 1 addr1], lb').
Proof. eexists. vm_compute. reflexivity. Qed.

(** ** Parsing the configuration *)

Lemma Add_scrapeIntervalSeconds addr sm :
  scrapeIntervalSeconds (Add addr sm) = scrapeIntervalSeconds sm.
Proof. unfold Add. by destruct (hosts sm !! addr). Qed.

Lemma foldl_Add_scrapeIntervalSeconds ips sm :
  scrapeIntervalSeconds (foldl (λ sm ip, Add ip sm) sm ips) = scrapeIntervalSeconds sm.
Proof.
  revert sm. induction ips as [|a ips IH]; intros sm; simpl; [done|].
  by rewrite IH, Add_scrapeIntervalSeconds.
Qed.

Section SetupFacts.
Variable ParseAddr : string → option (list N).
Variable ParseCIDR : string → option (list N * IPNet).
Variable IP_Mask : list N → list N → list N.
Variable IPNet_Contains : IPNet → list N → bool.

Local Abbreviation parse_line :=
  (parseSession_line ParseAddr ParseCIDR IP_Mask IPNet_Contains).
Local Abbreviation parse_block :=
  (parseSession_block ParseAddr ParseCIDR IP_Mask IPNet_Contains).
Local Abbreviation parse_session :=
  (parseSession ParseAddr ParseCIDR IP_Mask IPNet_Contains).
Local Abbreviation parse_targets :=
  (parseTargetIps ParseAddr ParseCIDR IP_Mask IPNet_Contains).

(** No line of the block writes the scrape interval. *)
Lemma parseSession_line_interval fuel key args s s' :
  parse_line fuel key args s = Some (Ok s') →
  scrapeIntervalSeconds (manager s') = scrapeIntervalSeconds (manager s).
Proof.
  unfold parseSession_line. intros H.
  destruct (checkSessionInputs key args), (index0 args) as [value| |];
    simplify_eq/=; repeat case_decide; simplify_eq/=; try done;
    (destruct (parse_targets fuel args) as [[ips| |]|];
     simplify_eq/=; by rewrite foldl_Add_scrapeIntervalSeconds).
Qed.

Lemma parseSession_block_interval fuel block s s' :
  parse_block fuel block s = Some (Ok s') →
  scrapeIntervalSeconds (manager s') = scrapeIntervalSeconds (manager s).
Proof.
  revert s. induction block as [|[key args] block IH]; intros s H.
  { by simplify_eq/=. }
  simpl in H.
  destruct (parse_line fuel key args s)
    as [[s1| |]|] eqn:Hline; simplify_eq/=.
  rewrite (IH _ H). by eapply parseSession_line_interval.
Qed.

(** C7, as amended.  Whatever the configuration is, a session that
    parseSession returns has the scrape interval of 15 seconds: the
    interval is a field of the manager with this default, and no option of
    the configuration sets it. *)
Theorem parseSession_interval fuel args block s :
  parse_session fuel args block = Some (Ok s) →
  scrapeIntervalSeconds (manager s) = DefaultScrapeSeconds.
Proof.
  unfold parseSession. destruct (negb (length args =? 2)%nat); [done|].
  match goal with
  | |- context [parse_block fuel block ?s0] =>
      destruct (parse_block fuel block s0) as [[s1| |]|] eqn:Hblock
  end; intros Hs; simplify_eq/=.
  apply parseSession_block_interval in Hblock. by rewrite Hblock.
Qed.

(** A key that is not one of the five options is rejected. *)
Lemma parseSession_line_unknown fuel key value args s :
  key ∉ [sessionTargetIps; sessionDomain; sessionScrapeMetric;
         sessionScrapePort; sessionScrapeTimeout] →
  parse_line fuel key (value :: args) s
  = Some (Err ("Unknown parameter: " +:+ key)).
Proof.
  rewrite !not_elem_of_cons. intros (H1 & H2 & H3 & H4 & H5 & _).
  unfold parseSession_line.
  assert (checkSessionInputs key (value :: args) = Ok ()) as ->.
  { unfold checkSessionInputs, Contains.
    rewrite !bool_decide_eq_false_2; [done|..];
      rewrite !elem_of_cons, elem_of_nil; tauto. }
  cbn [index0]. by rewrite !decide_False.
Qed.

(** Target addresses that do not parse are rejected. *)
Lemma parseSession_line_bad_target fuel value args s msg :
  parse_targets fuel (value :: args) = Some (Err msg) →
  parse_line fuel sessionTargetIps (value :: args) s = Some (Err msg).
Proof.
  intros Hips. unfold parseSession_line.
  assert (checkSessionInputs sessionTargetIps (value :: args) = Ok ()) as -> by done.
  cbn [index0]. rewrite decide_True by done. by rewrite Hips.
Qed.

(** C6, the failing inputs.  A port that is not a number, a timeout out
    of the range of int32 and a domain with two arguments: for each of
    them checkSessionInputs returns an error, and parseSession returns a
    session all the same, with the port 0, the timeout 2147483647 and the
    domain of the first argument.  A domain without an argument is an error
    for checkSessionInputs too; parseSession goes on and panics at the
    first argument. *)
Theorem parseSession_drops_check fuel :
  (∃ msg, checkSessionInputs sessionScrapePort ["abc"] = Err msg) ∧
  (∃ s, parse_session fuel ["session"; "www"] [(sessionScrapePort, ["abc"])]
          = Some (Ok s) ∧ scrapePort (manager s) = 0) ∧
  (∃ msg, checkSessionInputs sessionScrapeTimeout ["99999999999"] = Err msg) ∧
  (∃ s, parse_session fuel ["session"; "www"] [(sessionScrapeTimeout, ["99999999999"])]
          = Some (Ok s) ∧ scrapeTimeoutSeconds (manager s) = 2147483647) ∧
  (∃ msg, checkSessionInputs sessionDomain ["a.org"; "b.org"] = Err msg) ∧
  (∃ s, parse_session fuel ["session"; "www"] [(sessionDomain, ["a.org"; "b.org"])]
          = Some (Ok s) ∧ domain s = "a.org") ∧
  (∃ msg, checkSessionInputs sessionDomain [] = Err msg) ∧
  parse_session fuel ["session"; "www"] [(sessionDomain, [])] = Some Panic.
Proof.
  split_and!; try eexists; try split; vm_compute; reflexivity.
Qed.
End SetupFacts.

Lemma parseSession_interval_witness :
  ∃ s,
    example_parseSession ["session"; "www"]
      [(sessionTargetIps, ["10.0.0.1"; "10.0.0.2"]);
       (sessionScrapeMetric, ["conns"]);
       (sessionScrapePort, ["9100"])] = Some (Ok s) ∧
    scrapeIntervalSeconds (manager s) = DefaultScrapeSeconds.
Proof.
  eexists. split; [vm_compute; reflexivity|].
  eapply (parseSession_interval example_ParseAddr (λ _, None) (λ ip _, ip) (λ _ _, false)
            0 ["session"; "www"]
            [(sessionTargetIps, ["10.0.0.1"; "10.0.0.2"]);
             (sessionScrapeMetric, ["conns"]);
             (sessionScrapePort, ["9100"])]).
  vm_compute. reflexivity.
Defined.

(** C7, counterexample.  A line that sets the scrape interval is rejected
    as an unknown parameter, and no line at all, whatever its key and its
    arguments are, changes the scrape interval of the session. *)
Lemma parseSession_interval_counterexample :
  example_parseSession ["session"; "www"] [("session_scrape_interval", ["20"])]
    = Some (Err "Unknown parameter: session_scrape_interval") ∧
  ¬ ∃ ParseAddr ParseCIDR IP_Mask IPNet_Contains fuel key args s s',
      parseSession_line ParseAddr ParseCIDR IP_Mask IPNet_Contains fuel key args s
        = Some (Ok s') ∧
      scrapeIntervalSeconds (manager s') ≠ scrapeIntervalSeconds (manager s).
Proof.
  split; [vm_compute; reflexivity|].
  intros (P1 & P2 & P3 & P4 & fuel & key & args & s & s' & Hline & Hne).
  apply Hne. by eapply parseSession_line_interval.
Qed.

(** ** The rounding of float32

    [binary_round] shifts the mantissa to the exponent that its length
    asks for, rounds it to the nearest even, and shifts once more if this
    has made it too long.  The facts below follow these steps; they give
    that a rounding returns a valid float and that it is monotone, from
    which [x + 1] is not less than [x]. *)

Lemma digits2_pos_size p : digits2_pos p = Pos.size p.
Proof. induction p; simpl; congruence. Qed.

Lemma Zdigits2_log2 p : Zdigits2 (Zpos p) = Z.log2 (Zpos p) + 1.
Proof.
  simpl. rewrite digits2_pos_size. destruct p; simpl; lia.
Qed.

Lemma shr_1_m mrs : 0 <= shr_m mrs -> shr_m (shr_1 mrs) = shr_m mrs / 2.
Proof.
  destruct mrs as [m r s]. cbn [shr_m]. intros Hm. rewrite <-Z.div2_div.
  destruct m as [|[p|p|]|p]; try reflexivity; lia.
Qed.

Lemma pow2_xO n : 2 ^ Zpos n~0 = 2 ^ Zpos n * 2 ^ Zpos n.
Proof.
  rewrite (Pos2Z.inj_xO n), (Z.mul_comm 2), Z.pow_mul_r, Z.pow_2_r by lia. done.
Qed.

Lemma pow2_xI n : 2 ^ Zpos n~1 = 2 * (2 ^ Zpos n * 2 ^ Zpos n).
Proof.
  rewrite (Pos2Z.inj_xI n), Z.pow_add_r, Z.pow_1_r, <-(Pos2Z.inj_xO n), pow2_xO by lia.
  lia.
Qed.

Lemma iter_pos_shr_m n mrs :
  0 <= shr_m mrs ->
  shr_m (SpecFloat.iter_pos shr_1 n mrs) = shr_m mrs / 2 ^ Zpos n.
Proof.
  revert mrs. induction n as [n IH|n IH|]; intros mrs Hm; cbn [SpecFloat.iter_pos].
  - assert (H1 : 0 <= shr_m (shr_1 mrs)).
    { rewrite shr_1_m by done. apply Z.div_pos; lia. }
    assert (H2 : 0 <= shr_m (SpecFloat.iter_pos shr_1 n (shr_1 mrs))).
    { rewrite IH by done. apply Z.div_pos; lia. }
    rewrite IH, IH, shr_1_m by done.
    rewrite !Z.div_div by lia. by rewrite pow2_xI.
  - assert (H2 : 0 <= shr_m (SpecFloat.iter_pos shr_1 n mrs)).
    { rewrite IH by done. apply Z.div_pos; lia. }
    rewrite IH, IH by done.
    rewrite !Z.div_div by lia. by rewrite pow2_xO.
  - rewrite shr_1_m by done. reflexivity.
Qed.

Lemma fexp_eq k : fexp Float32.prec Float32.emax k = Z.max (k - 24) (-149).
Proof. reflexivity. Qed.

Lemma Zdigits2_pos m : 0 < m -> Zdigits2 m = Z.log2 m + 1.
Proof. destruct m as [|p|p]; try lia. intros _. apply Zdigits2_log2. Qed.

Lemma Zdigits2_0 : Zdigits2 0 = 0.
Proof. reflexivity. Qed.

Lemma shr_fexp_exact m e :
  0 <= m ->
  let n := Z.max 0 (fexp Float32.prec Float32.emax (Zdigits2 m + e) - e) in
  ∃ mrs, shr_fexp Float32.prec Float32.emax m e loc_Exact = (mrs, e + n) ∧ shr_m mrs = m / 2 ^ n.
Proof.
  intros Hm n. unfold shr_fexp, shr. subst n.
  destruct (fexp Float32.prec Float32.emax (Zdigits2 m + e) - e) as [|p|p] eqn:Hn.
  - exists (shr_record_of_loc m loc_Exact). split; [f_equal; lia|].
    cbn [shr_m shr_record_of_loc].
    replace (Z.max 0 0) with 0 by lia. by rewrite Z.pow_0_r, Z.div_1_r.
  - exists (SpecFloat.iter_pos shr_1 p (shr_record_of_loc m loc_Exact)).
    split; [f_equal; lia|]. rewrite iter_pos_shr_m by done.
    cbn [shr_m shr_record_of_loc]. f_equal.
  - exists (shr_record_of_loc m loc_Exact). split; [f_equal; lia|].
    cbn [shr_m shr_record_of_loc].
    replace (Z.max 0 (Z.neg p)) with 0 by lia. by rewrite Z.pow_0_r, Z.div_1_r.
Qed.

Lemma round_nearest_even_cases m l :
  round_nearest_even m l = m ∨ round_nearest_even m l = m + 1.
Proof.
  unfold round_nearest_even. destruct l as [|[]]; auto. destruct (Z.even m); auto.
Qed.

Lemma binary_round_aux_exact s m e :
  0 < m ->
  let n1 := Z.max 0 (fexp Float32.prec Float32.emax (Zdigits2 m + e) - e) in
  ∃ m2, (m2 = m / 2 ^ n1 ∨ m2 = m / 2 ^ n1 + 1) ∧
        binary_round_aux Float32.prec Float32.emax s m e loc_Exact = finish s m2 (e + n1).
Proof.
  intros Hm n1. unfold binary_round_aux.
  destruct (shr_fexp_exact m e) as (mrs & -> & Hmrs); [lia|]. fold n1.
  set (m2 := round_nearest_even (shr_m mrs) (loc_of_shr_record mrs)).
  exists m2. split.
  { subst n1. rewrite <-Hmrs. apply round_nearest_even_cases. }
  assert (0 <= m2).
  { assert (0 <= shr_m mrs) by (rewrite Hmrs; apply Z.div_pos; lia).
    destruct (round_nearest_even_cases (shr_m mrs) (loc_of_shr_record mrs)); lia. }
  destruct (shr_fexp_exact m2 (e + n1)) as (mrs' & -> & Hmrs'); [lia|].
  unfold finish. by rewrite Hmrs'.
Qed.

Lemma first_shift m e :
  0 < m -> e <= fexp Float32.prec Float32.emax (Zdigits2 m + e) ->
  let e1 := fexp Float32.prec Float32.emax (Zdigits2 m + e) in
  let m1 := m / 2 ^ (e1 - e) in
  0 <= m1 ∧
  (0 < m1 -> Zdigits2 m1 + e1 = Zdigits2 m + e) ∧
  (m1 = 0 -> e1 = -149).
Proof.
  intros Hm He e1 m1.
  assert (He1 : e1 = fexp Float32.prec Float32.emax (Zdigits2 m + e)) by done.
  assert (Hm1' : m1 = m / 2 ^ (e1 - e)) by done.
  clearbody e1 m1.
  assert (Hn : 0 <= e1 - e) by lia.
  assert (Hm1 : 0 <= m1) by (subst m1; apply Z.div_pos; lia).
  split; [done|].
  assert (Hlog : Z.log2 m1 = Z.max 0 (Z.log2 m - (e1 - e))).
  { subst m1. rewrite <-Z.shiftr_div_pow2 by done. by apply Z.log2_shiftr. }
  split.
  - intros Hpos. rewrite !Zdigits2_pos by done.
    assert (e1 - e <= Z.log2 m); [|lia].
    apply Z.log2_le_pow2; [done|].
    apply Z.nlt_ge. intros Hlt.
    rewrite Hm1', Z.div_small in Hpos by lia. lia.
  - intros H0.
    assert (Z.log2 m < e1 - e).
    { apply Z.log2_lt_pow2; [done|].
      apply Z.nle_gt. intros Hle.
      assert (1 <= m1); [|lia]. subst m1.
      apply Z.div_le_lower_bound; lia. }
    rewrite Zdigits2_pos, fexp_eq in He1 by done. lia.
Qed.

Lemma finish_spec s m1 m2 e1 :
  0 <= m1 ->
  (0 < m1 -> fexp Float32.prec Float32.emax (Zdigits2 m1 + e1) = e1) ->
  (m1 = 0 -> e1 = -149) ->
  m2 = m1 ∨ m2 = m1 + 1 ->
  rounded s m2 e1 (finish s m2 e1).
Proof.
  intros Hm1 Hcanon Hzero Hm2. unfold rounded, finish.
  destruct (decide (m2 = 0)) as [->|Hne].
  { left. split; [done|]. rewrite Zdigits2_0, Z.add_0_l, fexp_eq.
    rewrite Hzero by lia. reflexivity. }
  right.
  assert (Hpos : 0 < m2) by lia.
  assert (Hd : fexp Float32.prec Float32.emax (Zdigits2 m2 + e1) = e1 ∨
               (fexp Float32.prec Float32.emax (Zdigits2 m2 + e1) = e1 + 1 ∧ m2 = 2 ^ 24)).
  { destruct Hm2 as [->| ->]; [left; apply Hcanon; lia|].
    destruct (decide (m1 = 0)) as [->|Hne1].
    { left. rewrite Hzero by done. reflexivity. }
    specialize (Hcanon ltac:(lia)).
    rewrite Zdigits2_pos, fexp_eq in Hcanon by lia.
    rewrite Zdigits2_pos, fexp_eq by lia.
    fold (Z.succ m1) in *.
    destruct (Z.log2_succ_or m1) as [Hs|Hs]; [|rewrite Hs; lia].
    destruct (Z.log2_eq_succ_is_pow2 m1 Hs) as (b & Hb).
    assert (0 <= b).
    { destruct (Z.le_gt_cases 0 b); [done|].
      rewrite Z.pow_neg_r in Hb by done. lia. }
    assert (b = Z.log2 m1 + 1).
    { rewrite <-(Z.log2_pow2 b), <-Hb by done. lia. }
    rewrite Hs.
    destruct (decide (Z.log2 m1 + 1 = 24)) as [H24|H24].
    - right. split; [lia|]. rewrite Hb. f_equal. lia.
    - left. lia. }
  destruct Hd as [Hd|[Hd ->]].
  - rewrite Hd, Z.sub_diag. change (Z.max 0 0) with 0.
    rewrite Z.pow_0_r, Z.div_1_r, Z.add_0_r.
    destruct m2 as [|m3|]; try lia.
    exists m3, e1. split_and!; [done|done|by left].
  - rewrite Hd. replace (Z.max 0 (e1 + 1 - e1)) with 1 by lia.
    change (2 ^ 24 / 2 ^ 1) with (Zpos 8388608).
    exists 8388608%positive, (e1 + 1). split_and!; [done| |by right].
    change (Zdigits2 (Z.pos 8388608)) with 24.
    rewrite fexp_eq in *. change (Zdigits2 (2 ^ 24)) with 25 in Hd. lia.
Qed.

Lemma binary_round_aux_spec s m e :
  0 < m -> e <= fexp Float32.prec Float32.emax (Zdigits2 m + e) ->
  let e1 := fexp Float32.prec Float32.emax (Zdigits2 m + e) in
  let m1 := m / 2 ^ (e1 - e) in
  ∃ m2, (m2 = m1 ∨ m2 = m1 + 1) ∧
        rounded s m2 e1 (binary_round_aux Float32.prec Float32.emax s m e loc_Exact).
Proof.
  intros Hm He e1 m1.
  destruct (binary_round_aux_exact s m e Hm) as (m2 & Hm2 & ->).
  fold e1 in Hm2 |- *.
  replace (Z.max 0 (e1 - e)) with (e1 - e) in * by (subst e1; lia).
  replace (e + (e1 - e)) with e1 by lia.
  fold m1 in Hm2. exists m2. split; [done|].
  destruct (first_shift m e Hm He) as (H1 & H2 & H3).
  fold e1 m1 in H1, H2, H3.
  apply (finish_spec s m1); try done.
  intros Hpos. specialize (H2 Hpos). rewrite H2. done.
Qed.

Lemma Pos_iter_xO m d : Zpos (Pos.iter xO m d) = Zpos m * 2 ^ Zpos d.
Proof.
  induction d as [|d IH] using Pos.peano_ind.
  - simpl. lia.
  - rewrite Pos.iter_succ, Pos2Z.inj_xO, IH, Pos2Z.inj_succ, Z.pow_succ_r by lia. lia.
Qed.

(** [binary_round] first aligns the mantissa, so that the shift of the
    rounding is not negative. *)
Lemma binary_round_align s mx ex :
  ∃ mz ez,
    binary_round Float32.prec Float32.emax s mx ex
      = binary_round_aux Float32.prec Float32.emax s (Zpos mz) ez loc_Exact ∧
    ez <= fexp Float32.prec Float32.emax (Zdigits2 (Zpos mz) + ez) ∧
    ez <= ex ∧ Zpos mz = Zpos mx * 2 ^ (ex - ez).
Proof.
  unfold binary_round, shl_align.
  set (f := fexp Float32.prec Float32.emax (Z.pos (digits2_pos mx) + ex)).
  assert (Hf : f = fexp Float32.prec Float32.emax (Zdigits2 (Zpos mx) + ex)) by done.
  clearbody f.
  destruct (f - ex) as [|d|d] eqn:Hd.
  - exists mx, ex. split_and!; [done|lia|lia|].
    by rewrite Z.sub_diag, Z.pow_0_r, Z.mul_1_r.
  - exists mx, ex. split_and!; [done|lia|lia|].
    by rewrite Z.sub_diag, Z.pow_0_r, Z.mul_1_r.
  - exists (Pos.iter xO mx d), f.
    assert (Hmz : Zpos (Pos.iter xO mx d) = Zpos mx * 2 ^ (ex - f)).
    { rewrite Pos_iter_xO. do 2 f_equal. lia. }
    split_and!; [done| |lia|done].
    rewrite Zdigits2_pos, Hmz by lia.
    rewrite Z.log2_mul_pow2 by lia.
    rewrite Zdigits2_pos in Hf by lia.
    replace (ex - f + Z.log2 (Z.pos mx) + 1 + f) with (Z.log2 (Z.pos mx) + 1 + ex) by lia.
    lia.
Qed.

(** The result of a rounding is a valid float. *)
Lemma binary_round_valid s mx ex :
  valid_binary Float32.prec Float32.emax (binary_round Float32.prec Float32.emax s mx ex) = true.
Proof.
  destruct (binary_round_align s mx ex) as (mz & ez & -> & Hez & _ & _).
  destruct (binary_round_aux_spec s (Zpos mz) ez) as (m2 & _ & Hr); [lia|done|].
  destruct Hr as [[_ ->]|(m3 & e3 & -> & Hcanon & _)]; [done|].
  destruct (Z.leb_spec e3 104); [|done].
  simpl. unfold bounded, canonical_mantissa.
  apply andb_true_intro. split; [by apply Z.eqb_eq|by apply Z.leb_le].
Qed.







Lemma shl_align_fst m e ez :
  ez <= e -> Zpos (fst (shl_align m e ez)) = Zpos m * 2 ^ (e - ez).
Proof.
  intros He. unfold shl_align.
  destruct (ez - e) as [|d|d] eqn:Hd; cbn [fst].
  - replace (e - ez) with 0 by lia. lia.
  - lia.
  - rewrite Pos_iter_xO. do 2 f_equal. lia.
Qed.

(** The sum of a finite float and one, as the rounding of an integer
    [S] at the exponent [ez]. *)
Lemma add_one_finite sx m e :
  let ez := Z.min e (-23) in
  SFadd Float32.prec Float32.emax (S754_finite sx m e) Float32.one
  = binary_normalize Float32.prec Float32.emax
      (cond_Zopp sx (Zpos m * 2 ^ (e - ez)) + 2 ^ 23 * 2 ^ (-23 - ez)) ez false.
Proof.
  intros ez. unfold SFadd, Float32.one. fold ez.
  rewrite !shl_align_fst by (subst ez; lia). done.
Qed.


Lemma add_one_valid x :
  valid_binary Float32.prec Float32.emax
    (SFadd Float32.prec Float32.emax x Float32.one) = true.
Proof.
  destruct x as [s|s| |sx m e]; try done.
  rewrite add_one_finite. unfold binary_normalize.
  destruct (_ + _); [done|apply binary_round_valid..].
Qed.


Example Float32_one_is_SFone : Float32.one = SFone Float32.prec Float32.emax.
Proof. reflexivity. Qed.


Lemma Float32_of_float64_valid v : Float32.valid (Float32.of_float64 v) = true.
Proof. destruct v as [s|s| |s m e]; try done. apply binary_round_valid. Qed.




(** ** Who writes the estimate *)

Lemma GetIPs_heap o o' rnd sm ips sm' :
  GetIPs o o' rnd sm = Ok (ips, sm') →
  sm' = sm ∨
  ∃ q, sm' = set_heap
               (alter (λ h, set_estimate (Float32.add (estimate h) Float32.one) h) q
                  (heap sm)) sm.
Proof.
  unfold GetIPs. case_decide; [intros [= _ <-]; by left|].
  destruct (mapM _ _) as [loaded| |]; [|done..]. simpl.
  destruct (index0 _) as [first| |]; [|done..]. simpl.
  intros [= _ <-]. right. by eexists.
Qed.

Lemma Start_heap_lookup sm p h :
  heap sm !! p = Some h →
  ∃ h', heap (Start sm) !! p = Some h' ∧
        ip h' = ip h ∧ base h' = base h ∧
        updated h' = updated h ∧ estimate h' = estimate h.
Proof.
  unfold Start. simpl. generalize ((map_to_list (hosts sm)).*2). intros l Hh.
  induction l as [|q l (h' & Hh' & ? & ? & ? & ?)]; simpl; [by exists h|].
  rewrite lookup_alter. case_decide; subst; rewrite Hh'; simpl;
    (eexists; split; [done|]; simpl; by split_and!).
Qed.




Example estimate_between_scrapes_run :
  estimate <$> heap (state_after
                       [OpGetIPs [] [] (λ i, i);
                        OpScrapeLoop (Unix 110 0) (Unix 110 1) GetFailed 2;
                        OpGetIPs [1; 0; 0]%nat [] (λ i, i)] sm_three) !! 2%positive
  = Some (Float32.of_float64 (float64_of_Z 3)).
Proof. vm_compute. reflexivity. Qed.

(** ** Invariants of executions *)

Lemma step_valid_estimates c sm sm' :
  step c sm = Ok sm' → valid_estimates sm → valid_estimates sm'.
Proof.
  unfold valid_estimates. intros Hstep Hvalid.
  destruct c as [addr| |now now' resp host|o o' rnd]; simpl in Hstep.
  - injection Hstep as <-. unfold Add. destruct (hosts sm !! addr); [done|].
    simpl. intros p h. rewrite lookup_insert. case_decide; [by intros [= <-]|].
    apply Hvalid.
  - injection Hstep as <-. unfold Start. simpl.
    induction ((map_to_list (hosts sm)).*2) as [|q l IH]; simpl; [done|].
    intros p h. rewrite lookup_alter. case_decide; [subst q|apply IH].
    match goal with
    | |- context [?m !! p] => destruct (m !! p) as [h0|] eqn:Hh0; [|done]
    end.
    intros [= <-]. simpl. by apply (IH p h0).
  - unfold ScrapeLoop_iter in Hstep.
    destruct (Scrape now resp host sm) as [sm1| |] eqn:Hsc; [|done..].
    simpl in Hstep.
    assert (Hheap : heap sm' = heap sm1).
    { destruct (load sm1 host); [|done..]. simpl in Hstep.
      destruct (Active _ _ _); by simplify_eq/=. }
    rewrite Hheap.
    destruct (Scrape_cases _ _ _ _ _ Hsc) as (h0 & Hh0 & [(v & Hv & ->)|[_ ->]]);
      [|done].
    simpl. intros p h. rewrite lookup_insert. case_decide; [|apply Hvalid].
    intros [= <-]. simpl. apply Float32_of_float64_valid.
  - destruct (GetIPs o o' rnd sm) as [[ips sm1]| |] eqn:Hget; [|done..].
    simpl in Hstep. injection Hstep as ->.
    destruct (GetIPs_heap _ _ _ _ _ _ Hget) as [->|(q & ->)]; [done|].
    simpl. intros p h. rewrite lookup_alter. case_decide; [subst q|apply Hvalid].
    destruct (heap sm !! p) as [h0|]; [|done]. intros [= <-]. simpl.
    apply add_one_valid.
Qed.

Lemma run_valid_estimates cs sm sm' :
  run cs sm = Ok sm' → valid_estimates sm → valid_estimates sm'.
Proof.
  revert sm. induction cs as [|c cs IH]; intros sm Hrun Hvalid; simpl in Hrun.
  { by injection Hrun as <-. }
  destruct (step c sm) as [sm1| |] eqn:Hstep; [|done..].
  eapply IH; [done|]. by eapply step_valid_estimates.
Qed.

Lemma valid_estimates_NewSessionManager : valid_estimates NewSessionManager.
Proof. apply map_Forall_empty. Qed.

(** The managers of an execution stay well formed. *)
Lemma wf_Start sm : wf sm → wf (Start sm).
Proof.
  intros (Hh & Ha & Hc). split_and!; [|done|].
  - intros a p Hap. specialize (Hh a p Hap).
    simpl in *. destruct (heap sm !! p) as [h|] eqn:Hp; [|done].
    destruct (Start_heap_lookup sm p h Hp) as (h' & Hh' & Hip & _).
    simpl in Hh'. rewrite Hh'. simpl in *. congruence.
  - unfold Start. simpl.
    induction ((map_to_list (hosts sm)).*2) as [|q l IH]; simpl; [done|].
    intros p h. rewrite lookup_alter. case_decide; [subst q|apply IH].
    match goal with
    | |- context [?m !! p] => destruct (m !! p) as [h0|] eqn:Hh0; [|done]
    end.
    intros [= <-]. simpl. by apply (IH p h0).
Qed.

Lemma step_wf c sm sm' : step c sm = Ok sm' → wf sm → wf sm'.
Proof.
  intros Hstep Hwf.
  destruct c as [addr| |now now' resp host|o o' rnd]; simpl in Hstep.
  - injection Hstep as <-. by apply wf_Add.
  - injection Hstep as <-. by apply wf_Start.
  - unfold ScrapeLoop_iter in Hstep.
    destruct (Scrape now resp host sm) as [sm1| |] eqn:Hsc; [|done..].
    simpl in Hstep.
    assert (Hwf1 : wf sm1).
    { destruct (Scrape_cases _ _ _ _ _ Hsc) as (h0 & Hh0 & [(v & Hv & ->)|[_ ->]]);
        [|done].
      destruct Hwf as (Hh & Ha & Hc). split_and!; simpl; [|done|].
      - intros a p Hap. specialize (Hh a p Hap). simpl in *.
        rewrite lookup_insert. case_decide; [subst p|done].
        rewrite Hh0 in Hh. by simplify_eq/=.
      - intros p h. rewrite lookup_insert. case_decide; [subst p|apply Hc].
        intros [= <-]. simpl. by apply (Hc host h0). }
    unfold load in Hstep. destruct (heap sm1 !! host) as [h|] eqn:Hh1; [|done].
    simpl in Hstep. destruct Hwf1 as (Hh & Ha & Hc).
    pose proof (Hc host h Hh1) as Hreg. simpl in Hreg.
    destruct (Active _ _ _); injection Hstep as <-.
    + split_and!; simpl; [done| |done].
      intros a p. rewrite lookup_insert. case_decide; [by intros [= <-]; subst a|].
      apply Ha.
    + split_and!; simpl; [done| |done].
      intros a p. rewrite lookup_delete. case_decide; [done|]. apply Ha.
  - destruct (GetIPs o o' rnd sm) as [[ips sm1]| |] eqn:Hget; [|done..].
    simpl in Hstep. injection Hstep as ->.
    destruct (GetIPs_heap _ _ _ _ _ _ Hget) as [->|(q & ->)]; [done|].
    destruct Hwf as (Hh & Ha & Hc). split_and!; simpl; [|done|].
    + intros a p Hap. specialize (Hh a p Hap). simpl in *.
      rewrite lookup_alter. case_decide; [subst p|done].
      destruct (heap sm !! q); by simplify_eq/=.
    + intros p h. rewrite lookup_alter. case_decide; [subst p|apply Hc].
      destruct (heap sm !! q) as [h0|] eqn:Hq; [|done]. intros [= <-].
      simpl. by apply (Hc q h0).
Qed.

Lemma run_wf cs sm sm' : run cs sm = Ok sm' → wf sm → wf sm'.
Proof.
  revert sm. induction cs as [|c cs IH]; intros sm Hrun Hwf; simpl in Hrun.
  { by injection Hrun as <-. }
  destruct (step c sm) as [sm1| |] eqn:Hstep; [|done..].
  eapply IH; [done|]. by eapply step_wf.
Qed.


(** * Further properties of the session manager *)

#[local] Set Warnings "-clear-no-such-hyp".

(** ** Registration *)

Lemma Add_present addr sm p : hosts sm !! addr = Some p → Add addr sm = sm.
Proof. intros Hp. unfold Add. by rewrite Hp. Qed.

Lemma Add_hosts_dom addr sm : dom (hosts (Add addr sm)) = {[addr]} ∪ dom (hosts sm).
Proof.
  unfold Add. destruct (hosts sm !! addr) as [p|] eqn:Hp; simpl.
  - apply leibniz_equiv. intros a. rewrite elem_of_union, elem_of_singleton.
    split; [auto|]. intros [->|?]; [|done]. apply elem_of_dom. eauto.
  - by rewrite dom_insert_L.
Qed.

(** X1.  Registering an address twice is the same as registering it once:
    the second Add finds the address and changes nothing, so the registry
    grows by one host for a new address and not at all for a known one. *)
Theorem Add_idempotent addr sm :
  Add addr (Add addr sm) = Add addr sm ∧
  size (hosts (Add addr sm)) =
    (if decide (addr ∈ dom (hosts sm)) then size (hosts sm) else S (size (hosts sm))) ∧
  size (heap (Add addr sm)) =
    (if decide (addr ∈ dom (hosts sm)) then size (heap sm) else S (size (heap sm))).
Proof.
  split_and!.
  - destruct (hosts sm !! addr) as [p|] eqn:Hp.
    + by rewrite !(Add_present _ _ _ Hp).
    + apply (Add_present _ _ (fresh (dom (heap sm)))).
      unfold Add. rewrite Hp. simpl. apply lookup_insert_eq.
  - unfold Add. destruct (hosts sm !! addr) as [p|] eqn:Hp.
    + rewrite decide_True; [done|]. apply elem_of_dom. eauto.
    + rewrite decide_False by (by apply not_elem_of_dom). simpl.
      by rewrite map_size_insert_None.
  - unfold Add. destruct (hosts sm !! addr) as [p|] eqn:Hp.
    + rewrite decide_True; [done|]. apply elem_of_dom. eauto.
    + rewrite decide_False by (by apply not_elem_of_dom). simpl.
      rewrite map_size_insert_None; [done|].
      apply not_elem_of_dom, is_fresh.
Qed.

(** X2.  Registering a list of addresses, as the parser does for a line of
    targets, registers exactly the addresses of the list beside those that
    were registered: repeated addresses count once, and the order does not
    matter for the set. *)
Theorem Add_list_dom (ips : list (list N)) sm :
  dom (hosts (foldl (λ sm ip, Add ip sm) sm ips)) = list_to_set ips ∪ dom (hosts sm).
Proof.
  revert sm. induction ips as [|a ips IH]; intros sm; simpl.
  - set_solver.
  - rewrite IH, Add_hosts_dom. set_solver.
Qed.

(** ** What an operation leaves as it is *)

Lemma ScrapeLoop_iter_unfold now now' resp p sm sm' :
  ScrapeLoop_iter now now' resp p sm = Ok sm' →
  ∃ sm1 h1,
    Scrape now resp p sm = Ok sm1 ∧ heap sm1 !! p = Some h1 ∧
    sm' = set_active
            (if Active now' (scrapeTimeoutSeconds sm1) h1
             then <[ip h1 := p]> (active sm1) else delete (ip h1) (active sm1))
            sm1.
Proof.
  unfold ScrapeLoop_iter. intros H.
  destruct (Scrape now resp p sm) as [sm1| |]; [|done..]. simpl in H.
  unfold load in H. destruct (heap sm1 !! p) as [h1|] eqn:Hh1; [|done]. simpl in H.
  exists sm1, h1. split_and!; [done..|].
  destruct (Active _ _ _); by injection H as <-.
Qed.

(** The configuration and the registry after a scrape. *)
Lemma Scrape_frame now resp p sm sm' :
  Scrape now resp p sm = Ok sm' →
  scrapeMetric sm' = scrapeMetric sm ∧ scrapePort sm' = scrapePort sm ∧
  scrapeTimeoutSeconds sm' = scrapeTimeoutSeconds sm ∧
  scrapeIntervalSeconds sm' = scrapeIntervalSeconds sm ∧
  hosts sm' = hosts sm ∧ active sm' = active sm ∧
  (∀ q, q ≠ p → heap sm' !! q = heap sm !! q) ∧
  ∃ h h', heap sm !! p = Some h ∧ heap sm' !! p = Some h' ∧
          ip h' = ip h ∧ port h' = port h ∧
          (h' = h ∨ (updated h' = now ∧ estimate h' = base h')).
Proof.
  intros (h & Hh & [(v & Hv & ->)|[_ ->]])%Scrape_cases; simpl.
  - split_and!; try done.
    + intros q Hq. by rewrite lookup_insert_ne.
    + exists h. eexists. rewrite lookup_insert_eq. split_and!; try done. by right.
  - split_and!; try done. exists h, h. split_and!; try done. by left.
Qed.

(** The registry only grows, a Host object keeps its address, and the
    configuration stays as it is, whatever the operation. *)
Lemma step_frame c sm sm' :
  step c sm = Ok sm' →
  hosts sm ⊆ hosts sm' ∧
  scrapeMetric sm' = scrapeMetric sm ∧ scrapePort sm' = scrapePort sm ∧
  scrapeTimeoutSeconds sm' = scrapeTimeoutSeconds sm ∧
  scrapeIntervalSeconds sm' = scrapeIntervalSeconds sm ∧
  ∀ p h, heap sm !! p = Some h → ∃ h', heap sm' !! p = Some h' ∧ ip h' = ip h.
Proof.
  intros Hstep.
  destruct c as [addr| |now now' resp host|o o' rnd]; simpl in Hstep.
  - injection Hstep as <-. unfold Add.
    destruct (hosts sm !! addr) as [q|] eqn:Hq; [split_and!; eauto|].
    simpl. split_and!; try done.
    + by apply insert_subseteq.
    + intros p h Hh. exists h. split; [|done].
      rewrite lookup_insert_ne; [done|]. intros Heq.
      pose proof (is_fresh (dom (heap sm))) as Hfresh.
      apply Hfresh. rewrite Heq. apply elem_of_dom. eauto.
  - injection Hstep as <-. split_and!; try done.
    intros p h Hh. destruct (Start_heap_lookup sm p h Hh) as (h' & ? & ? & _). eauto.
  - apply ScrapeLoop_iter_unfold in Hstep as (sm1 & h1 & Hsc & Hh1 & ->).
    apply Scrape_frame in Hsc
      as (? & ? & ? & ? & Hhosts & _ & Hother & h & h' & Hh & Hh' & Hip & _).
    simpl. split_and!; try done; [by rewrite Hhosts|].
    intros q hq Hq. destruct (decide (q = host)) as [->|Hne].
    + exists h'. split; [done|]. congruence.
    + exists hq. by rewrite Hother.
  - destruct (GetIPs o o' rnd sm) as [[ips sm1]| |] eqn:Hget; [|done..].
    simpl in Hstep. injection Hstep as ->.
    destruct (GetIPs_heap _ _ _ _ _ _ Hget) as [->|(q & ->)]; [split_and!; eauto|].
    simpl. split_and!; try done.
    intros p h Hh. rewrite lookup_alter. case_decide; subst; rewrite Hh; simpl; eauto.
Qed.

(** X3.  In every execution the active map stays a part of the map of all
    hosts: an active address is registered, with the same Host object, and
    this object carries the address. *)
Theorem active_subset_hosts cs sm sm' :
  wf sm → run cs sm = Ok sm' →
  active sm' ⊆ hosts sm' ∧
  ∀ a p, active sm' !! a = Some p → ∃ h, heap sm' !! p = Some h ∧ ip h = a.
Proof.
  intros Hwf Hrun. pose proof (run_wf cs sm sm' Hrun Hwf) as Hwf'. split.
  - apply map_subseteq_spec. intros a p Hap.
    destruct Hwf' as (_ & Ha & _). by apply Ha.
  - intros a p. by apply wf_active_lookup.
Qed.

Lemma active_subset_hosts_witness :
  active sm_three ⊆ hosts sm_three ∧
  ∀ a p, active sm_three !! a = Some p → ∃ h, heap sm_three !! p = Some h ∧ ip h = a.
Proof.
  apply (active_subset_hosts
           [OpAdd addr1; OpAdd addr2; OpAdd addr3;
            OpScrapeLoop (Unix 100 0) (Unix 100 1)
              (gauge_response "conns" (float64_of_Z 3)) 1;
            OpScrapeLoop (Unix 100 0) (Unix 100 1)
              (gauge_response "conns" (float64_of_Z 1)) 2;
            OpScrapeLoop (Unix 100 0) (Unix 100 1)
              (gauge_response "conns" (float64_of_Z 2)) 3]
           (set_scrapeMetric "conns" NewSessionManager)).
  - apply (bool_decide_unpack _). vm_compute. exact I.
  - vm_compute. reflexivity.
Defined.

(** X4.  Nothing is ever removed from the registry or reconfigured while
    the engine runs: after any execution every address that was registered
    is registered with the same Host object, this object still carries its
    address, and the metric, port, timeout and interval are the ones at the
    start. *)
Theorem hosts_never_removed cs sm sm' :
  run cs sm = Ok sm' →
  hosts sm ⊆ hosts sm' ∧
  (∀ p h, heap sm !! p = Some h → ∃ h', heap sm' !! p = Some h' ∧ ip h' = ip h) ∧
  scrapeMetric sm' = scrapeMetric sm ∧ scrapePort sm' = scrapePort sm ∧
  scrapeTimeoutSeconds sm' = scrapeTimeoutSeconds sm ∧
  scrapeIntervalSeconds sm' = scrapeIntervalSeconds sm.
Proof.
  revert sm. induction cs as [|c cs IH]; intros sm Hrun; simpl in Hrun.
  { injection Hrun as <-. split_and!; eauto. }
  destruct (step c sm) as [sm1| |] eqn:Hstep; [|done..]. simpl in Hrun.
  destruct (step_frame _ _ _ Hstep) as (Hs1 & ? & ? & ? & ? & Hh1).
  destruct (IH _ Hrun) as (Hs2 & Hh2 & ? & ? & ? & ?).
  split_and!; try congruence.
  - by trans (hosts sm1).
  - intros p h Hh. destruct (Hh1 p h Hh) as (h1 & Hp1 & Hip1).
    destruct (Hh2 p h1 Hp1) as (h2 & Hp2 & Hip2). exists h2. split; congruence.
Qed.

Lemma hosts_never_removed_witness :
  let sm' := state_after [OpGetIPs [] [] (λ i, i); OpAdd [10; 0; 0; 9]%N; OpStart]
               sm_three in
  hosts sm_three ⊆ hosts sm' ∧
  (∀ p h, heap sm_three !! p = Some h → ∃ h', heap sm' !! p = Some h' ∧ ip h' = ip h) ∧
  scrapeMetric sm' = scrapeMetric sm_three ∧ scrapePort sm' = scrapePort sm_three ∧
  scrapeTimeoutSeconds sm' = scrapeTimeoutSeconds sm_three ∧
  scrapeIntervalSeconds sm' = scrapeIntervalSeconds sm_three.
Proof.
  intros sm'.
  apply (hosts_never_removed
           [OpGetIPs [] [] (λ i, i); OpAdd [10; 0; 0; 9]%N; OpStart] sm_three sm').
  vm_compute. reflexivity.
Defined.

(** ** The answer of GetIPs, whatever the estimates are *)

Lemma GetIPs_degraded_run o o' rnd sm :
  active sm = ∅ →
  GetIPs o o' rnd sm
  = Ok (Shuffle rnd (AsSlice <$> range_order o' (map_to_list (hosts sm)).*1), sm).
Proof.
  intros Hempty. unfold GetIPs. rewrite Hempty, map_to_list_empty.
  assert (Hr : range_order o ([] : list (list N * positive)).*2 = []).
  { apply Permutation_nil_r. by rewrite range_order_Permutation. }
  by rewrite Hr.
Qed.

(** The addresses that GetIPs answers with: the active ones, or all of
    them if none is active. *)
Lemma GetIPs_answer o o' rnd sm :
  wf sm →
  ∃ ips sm',
    GetIPs o o' rnd sm = Ok (ips, sm') ∧
    ips ≡ₚ AsSlice <$>
             (map_to_list (if decide (active sm = ∅) then hosts sm else active sm)).*1.
Proof.
  intros Hwf. case_decide as Hact.
  - rewrite GetIPs_degraded_run by done. eexists _, _. split; [done|].
    by rewrite Shuffle_Permutation, range_order_Permutation.
  - destruct (GetIPs_active_run o o' rnd sm Hwf Hact)
      as (loaded & first & rest & Hsnap & Hsort & ->).
    eexists _, _. split; [done|].
    rewrite <-Hsort. apply active_addresses; [done|].
    destruct Hsnap as [Hperm Hall]. split.
    + by rewrite insertionSort_Permutation.
    + by rewrite insertionSort_Permutation.
Qed.



(** X6.  A call of GetIPs writes nothing but one estimate: the two maps
    and the configuration stay as they are, every Host object keeps its
    address, port, base and time of update, and all Host objects but one at
    most are left as they are. *)
Theorem GetIPs_writes_one_estimate o o' rnd sm ips sm' :
  GetIPs o o' rnd sm = Ok (ips, sm') →
  hosts sm' = hosts sm ∧ active sm' = active sm ∧
  scrapeMetric sm' = scrapeMetric sm ∧ scrapePort sm' = scrapePort sm ∧
  scrapeTimeoutSeconds sm' = scrapeTimeoutSeconds sm ∧
  scrapeIntervalSeconds sm' = scrapeIntervalSeconds sm ∧
  dom (heap sm') = dom (heap sm) ∧
  (∀ p h h', heap sm !! p = Some h → heap sm' !! p = Some h' →
     ip h' = ip h ∧ port h' = port h ∧ base h' = base h ∧ updated h' = updated h) ∧
  ∃ q, ∀ p, p ≠ q → heap sm' !! p = heap sm !! p.
Proof.
  intros [->|(q & ->)]%GetIPs_heap.
  - split_and!; try done.
    + intros p h h' Hh Hh'. by simplify_eq.
    + by exists 1%positive.
  - simpl. split_and!; try done.
    + apply leibniz_equiv. intros p. rewrite !elem_of_dom, lookup_alter.
      case_decide; subst; [|done]. by rewrite fmap_is_Some.
    + intros p h h' Hh. rewrite lookup_alter. case_decide; subst; rewrite Hh; simpl;
        by intros [= <-].
    + exists q. intros p Hp. by rewrite lookup_alter_ne.
Qed.

Lemma GetIPs_writes_one_estimate_witness :
  let sm' := state_after [OpGetIPs [] [] (λ i, i)] sm_three in
  hosts sm' = hosts sm_three ∧ active sm' = active sm_three ∧
  scrapeMetric sm' = scrapeMetric sm_three ∧ scrapePort sm' = scrapePort sm_three ∧
  scrapeTimeoutSeconds sm' = scrapeTimeoutSeconds sm_three ∧
  scrapeIntervalSeconds sm' = scrapeIntervalSeconds sm_three ∧
  dom (heap sm') = dom (heap sm_three) ∧
  (∀ p h h', heap sm_three !! p = Some h → heap sm' !! p = Some h' →
     ip h' = ip h ∧ port h' = port h ∧ base h' = base h ∧ updated h' = updated h) ∧
  ∃ q, ∀ p, p ≠ q → heap sm' !! p = heap sm_three !! p.
Proof.
  intros sm'.
  apply (GetIPs_writes_one_estimate [] [] (λ i, i) sm_three [addr2; addr3; addr1] sm').
  vm_compute. reflexivity.
Defined.

(** ** Turns of the scrape loop *)

(** X7.  A turn of the scrape loop of a host touches this host only: the
    registry and the configuration stay as they are, every other Host object
    and every other entry of the active map stay as they are, and the host
    keeps its address and its port. *)
Theorem ScrapeLoop_iter_own_host now now' resp p sm sm' :
  ScrapeLoop_iter now now' resp p sm = Ok sm' →
  hosts sm' = hosts sm ∧
  scrapeMetric sm' = scrapeMetric sm ∧ scrapePort sm' = scrapePort sm ∧
  scrapeTimeoutSeconds sm' = scrapeTimeoutSeconds sm ∧
  scrapeIntervalSeconds sm' = scrapeIntervalSeconds sm ∧
  (∀ q, q ≠ p → heap sm' !! q = heap sm !! q) ∧
  ∃ h h', heap sm !! p = Some h ∧ heap sm' !! p = Some h' ∧
          ip h' = ip h ∧ port h' = port h ∧
          ∀ a, a ≠ ip h → active sm' !! a = active sm !! a.
Proof.
  intros (sm1 & h1 & Hsc & Hh1 & ->)%ScrapeLoop_iter_unfold.
  apply Scrape_frame in Hsc
    as (? & ? & ? & ? & Hhosts & Hact & Hother & h & h' & Hh & Hh' & Hip & Hport & _).
  simpl. split_and!; try done.
  exists h, h'. split_and!; try done.
  intros a Ha. rewrite Hh' in Hh1. injection Hh1 as <-. rewrite Hip.
  destruct (Active _ _ _).
  - rewrite lookup_insert_ne by done. by rewrite Hact.
  - rewrite lookup_delete_ne by done. by rewrite Hact.
Qed.

Lemma ScrapeLoop_iter_own_host_witness :
  let sm' := state_after
               [OpScrapeLoop (Unix 200 0) (Unix 200 1)
                  (gauge_response "conns" (float64_of_Z 7)) 2] sm_three in
  hosts sm' = hosts sm_three ∧
  scrapeMetric sm' = scrapeMetric sm_three ∧ scrapePort sm' = scrapePort sm_three ∧
  scrapeTimeoutSeconds sm' = scrapeTimeoutSeconds sm_three ∧
  scrapeIntervalSeconds sm' = scrapeIntervalSeconds sm_three ∧
  (∀ q, q ≠ 2%positive → heap sm' !! q = heap sm_three !! q) ∧
  ∃ h h', heap sm_three !! 2%positive = Some h ∧ heap sm' !! 2%positive = Some h' ∧
          ip h' = ip h ∧ port h' = port h ∧
          ∀ a, a ≠ ip h → active sm' !! a = active sm_three !! a.
Proof.
  intros sm'.
  apply (ScrapeLoop_iter_own_host (Unix 200 0) (Unix 200 1)
           (gauge_response "conns" (float64_of_Z 7)) 2 sm_three sm').
  vm_compute. reflexivity.
Defined.

(** A host that is not active at some time is not active later either,
    as long as it is not updated: durations saturate, they do not wrap. *)
Lemma Active_antitone now now' interval h :
  now ≤ now' → Active now interval h = false → Active now' interval h = false.
Proof.
  unfold Active, Since, Sub, minDuration, maxDuration.
  intros Hle H%Z.ltb_ge. apply Z.ltb_ge. lia.
Qed.

(** X8.  Once a turn of its loop has found a host inactive, later turns
    whose scrape delivers no value leave it out of the active map, however
    much time passes: only a scrape that delivers a value brings a host
    back. *)
Theorem inactive_stays_inactive now1 now1' resp1 now2 now2' resp2 p sm sm1 sm2 h1 :
  ScrapeLoop_iter now1 now1' resp1 p sm = Ok sm1 →
  heap sm1 !! p = Some h1 → active sm1 !! ip h1 = None →
  (∀ v, ¬ scraped sm1 resp2 v) → now1' ≤ now2' →
  ScrapeLoop_iter now2 now2' resp2 p sm1 = Ok sm2 →
  active sm2 !! ip h1 = None ∧ heap sm2 !! p = Some h1.
Proof.
  intros (sm0 & h0 & Hsc0 & Hh0 & ->)%ScrapeLoop_iter_unfold Hh1 Hnone Hfail Hle
         (sm1' & h1' & Hsc & Hh1' & ->)%ScrapeLoop_iter_unfold.
  simpl in *. rewrite Hh0 in Hh1. injection Hh1 as ->.
  apply Scrape_failure in Hsc; [|done]. subst sm1'. simpl in *.
  rewrite Hh0 in Hh1'. injection Hh1' as <-.
  destruct (Active now1' (scrapeTimeoutSeconds sm0) h1) eqn:Hact.
  { by rewrite lookup_insert_eq in Hnone. }
  rewrite (Active_antitone now1' now2') by done.
  split; [|done]. by rewrite lookup_delete_eq.
Qed.

Lemma inactive_stays_inactive_witness :
  let sm1 := state_after [OpScrapeLoop (Unix 200 0) (Unix 200 1) GetFailed 1] sm_three in
  let sm2 := state_after [OpScrapeLoop (Unix 215 0) (Unix 225 0) GetFailed 1] sm1 in
  active sm2 !! addr1 = None ∧
  heap sm2 !! 1%positive
  = Some (mkHost addr1 0 (Float32.of_float64 (float64_of_Z 3)) (Unix 100 0)
            (Float32.of_float64 (float64_of_Z 3))).
Proof.
  intros sm1 sm2.
  apply (inactive_stays_inactive (Unix 200 0) (Unix 200 1) GetFailed
           (Unix 215 0) (Unix 225 0) GetFailed 1 sm_three sm1 sm2
           (mkHost addr1 0 (Float32.of_float64 (float64_of_Z 3)) (Unix 100 0)
              (Float32.of_float64 (float64_of_Z 3)))).
  - vm_compute. reflexivity.
  - vm_compute. reflexivity.
  - vm_compute. reflexivity.
  - intros v (? & ? & ? & ? & _). done.
  - vm_compute. discriminate.
  - vm_compute. reflexivity.
Defined.

(** X9.  With a timeout of 0 seconds no host is ever active: whatever a
    turn of the loop scrapes, it leaves the host out of the active map (the
    clock not running backwards). *)
Theorem zero_timeout_never_active now now' resp p sm sm' h :
  scrapeTimeoutSeconds sm = 0 →
  heap sm !! p = Some h → updated h ≤ now' → now ≤ now' →
  ScrapeLoop_iter now now' resp p sm = Ok sm' →
  active sm' !! ip h = None.
Proof.
  intros HT Hh Hupd Hnow (sm1 & h1 & Hsc & Hh1 & ->)%ScrapeLoop_iter_unfold.
  apply Scrape_frame in Hsc
    as (_ & _ & HT1 & _ & _ & _ & _ & h0 & h' & Hh0 & Hh' & Hip & _ & Hcase).
  rewrite Hh in Hh0. injection Hh0 as <-.
  rewrite Hh' in Hh1. injection Hh1 as <-.
  simpl. rewrite HT1, HT, <-Hip.
  assert (Active now' 0 h' = false) as ->.
  { unfold Active, Since, Sub, minDuration, maxDuration. apply Z.ltb_ge.
    destruct Hcase as [->|[Hu _]]; lia. }
  by rewrite lookup_delete_eq.
Qed.

Lemma zero_timeout_never_active_witness :
  active (state_after
            [OpScrapeLoop (Unix 200 0) (Unix 200 0)
               (gauge_response "conns" (float64_of_Z 7)) 1]
            (set_scrapeTimeoutSeconds 0 sm_three)) !! addr1 = None.
Proof.
  apply (zero_timeout_never_active (Unix 200 0) (Unix 200 0)
           (gauge_response "conns" (float64_of_Z 7)) 1
           (set_scrapeTimeoutSeconds 0 sm_three)
           (state_after
              [OpScrapeLoop (Unix 200 0) (Unix 200 0)
                 (gauge_response "conns" (float64_of_Z 7)) 1]
              (set_scrapeTimeoutSeconds 0 sm_three))
           (mkHost addr1 0 (Float32.of_float64 (float64_of_Z 3)) (Unix 100 0)
              (Float32.of_float64 (float64_of_Z 3)))).
  - reflexivity.
  - vm_compute. reflexivity.
  - vm_compute. discriminate.
  - vm_compute. discriminate.
  - vm_compute. reflexivity.
Defined.

(** ** From the scrape loop to the answer *)






(** * Further properties of the setup *)

(** ** increment *)

Lemma be_value_snoc ip b : be_value (ip ++ [b]) = (be_value ip * 256 + b)%N.
Proof. unfold be_value. by rewrite foldl_app. Qed.

Lemma be_value_reverse r : be_value (reverse r) = le_value r.
Proof.
  induction r as [|b r IH]; [done|].
  rewrite reverse_cons, be_value_snoc, IH. simpl. lia.
Qed.

Lemma le_value_bound r :
  Forall (λ b, b < 256)%N r → (le_value r < 256 ^ N.of_nat (length r))%N.
Proof.
  induction 1 as [|b r Hb _ IH]; [simpl; lia|].
  cbn [le_value foldr length]. fold (le_value r).
  rewrite Nat2N.inj_succ, N.pow_succ_r'. lia.
Qed.

Lemma increment_rev_length r : length (increment_rev r) = length r.
Proof.
  induction r as [|b r IH]; [done|]. simpl.
  destruct (0 <? (b + 1) `mod` 256)%N; simpl; by rewrite ?IH.
Qed.

Lemma increment_rev_bytes r :
  Forall (λ b, b < 256)%N r → Forall (λ b, b < 256)%N (increment_rev r).
Proof.
  induction 1 as [|b r Hb Hr IH]; [done|]. simpl.
  assert ((b + 1) `mod` 256 < 256)%N by (apply N.mod_lt; lia).
  destruct (0 <? (b + 1) `mod` 256)%N; by constructor.
Qed.

Lemma increment_rev_value r :
  Forall (λ b, b < 256)%N r →
  le_value (increment_rev r) = ((le_value r + 1) `mod` 256 ^ N.of_nat (length r))%N.
Proof.
  induction 1 as [|b r Hb Hr IH].
  { simpl. by rewrite N.mod_1_r. }
  pose proof (le_value_bound r Hr) as Hbound.
  cbn [increment_rev le_value foldr length]. fold (le_value r).
  rewrite Nat2N.inj_succ, N.pow_succ_r'.
  destruct (N.ltb_spec 0 ((b + 1) `mod` 256)) as [Hpos|Hzero].
  - assert (b + 1 < 256)%N as Hlt.
    { destruct (decide (b + 1 = 256)%N) as [Heq|]; [|lia].
      rewrite Heq, N.Div0.mod_same in Hpos. lia. }
    rewrite (N.mod_small (b + 1)) by done.
    cbn [le_value foldr]. fold (le_value r).
    rewrite N.mod_small; lia.
  - assert (b = 255)%N as ->.
    { apply N.le_0_r in Hzero.
      destruct (decide (b + 1 = 256)%N) as [Heq|]; [lia|].
      rewrite N.mod_small in Hzero by lia. lia. }
    change ((255 + 1) `mod` 256)%N with 0%N.
    cbn [le_value foldr]. fold (le_value (increment_rev r)). rewrite IH.
    replace (255 + 256 * le_value r + 1)%N with (256 * (le_value r + 1))%N by lia.
    rewrite N.Div0.mul_mod_distr_l. lia.
Qed.

(** X12.  increment adds one to the number that the bytes of the address
    spell, the first byte the most significant, and wraps to zero after the
    last address: it keeps the length and returns bytes. *)
Theorem increment_successor ip :
  Forall (λ b, b < 256)%N ip →
  length (increment ip) = length ip ∧
  Forall (λ b, b < 256)%N (increment ip) ∧
  be_value (increment ip) = ((be_value ip + 1) `mod` 256 ^ N.of_nat (length ip))%N.
Proof.
  intros Hb. unfold increment.
  assert (Hr : Forall (λ b, b < 256)%N (reverse ip)) by (by apply Forall_reverse).
  split_and!.
  - by rewrite length_reverse, increment_rev_length, length_reverse.
  - by apply Forall_reverse, increment_rev_bytes.
  - rewrite be_value_reverse, increment_rev_value by done.
    by rewrite <-be_value_reverse, reverse_involutive, length_reverse.
Qed.

Lemma increment_successor_witness :
  length (increment [10; 0; 255; 255]%N) = 4%nat ∧
  Forall (λ b, b < 256)%N (increment [10; 0; 255; 255]%N) ∧
  be_value (increment [10; 0; 255; 255]%N)
  = ((be_value [10; 0; 255; 255]%N + 1) `mod` 256 ^ N.of_nat 4)%N.
Proof.
  apply (increment_successor [10; 0; 255; 255]%N).
  repeat constructor.
Defined.

Example increment_carry : increment [10; 0; 255; 255]%N = [10; 1; 0; 0]%N.
Proof. reflexivity. Qed.

Example increment_wraps : increment [255; 255; 255; 255]%N = [0; 0; 0; 0]%N.
Proof. reflexivity. Qed.

(** ** Numbers of the configuration *)

Lemma ParseUint_digits_range s n :
  0 ≤ n ≤ maxVal32 → 0 ≤ (ParseUint_digits s n).1 ≤ maxVal32.
Proof.
  revert n. induction s as [|c s IH]; intros n Hn; simpl; [done|].
  unfold digit.
  destruct ((48 <=? Z.of_N (N_of_ascii c)) && (Z.of_N (N_of_ascii c) <=? 57)) eqn:Hd;
    [|simpl; unfold maxVal32; lia].
  apply andb_prop in Hd as [H1%Z.leb_le H2%Z.leb_le].
  destruct (maxUint64 `div` 10 + 1 <=? n); [simpl; unfold maxVal32; lia|].
  destruct (Z.ltb_spec maxVal32 (n * 10 + (Z.of_N (N_of_ascii c) - 48)));
    [simpl; unfold maxVal32; lia|].
  apply IH. lia.
Qed.

Lemma ParseInt_range s : - 2 ^ 31 ≤ (ParseInt s).1 ≤ 2 ^ 31 - 1.
Proof.
  unfold ParseInt. destruct s as [|c s]; [simpl; lia|].
  set (s' := if Ascii.eqb c "+" || Ascii.eqb c "-" then s else String c s).
  assert (Hun : 0 ≤ (ParseUint s').1 ≤ maxVal32).
  { unfold ParseUint. destruct s'; [simpl; unfold maxVal32; lia|].
    apply ParseUint_digits_range. unfold maxVal32. lia. }
  destruct (ParseUint s') as [un err]. simpl in Hun.
  destruct err as [[]|]; simpl; try lia;
    destruct (Ascii.eqb c "-"); simpl;
    repeat (match goal with
            | |- context [if ?b then _ else _] => destruct b eqn:?
            end; simpl); lia.
Qed.


(** ** The expansion of a network prefix *)

Lemma nth_address_succ ip k : nth_address (increment ip) k = nth_address ip (S k).
Proof. unfold nth_address. symmetry. apply Nat.iter_succ_r. Qed.

Section ExpandFacts.
Variable ParseAddr : string → option (list N).
Variable ParseCIDR : string → option (list N * IPNet).
Variable IP_Mask : list N → list N → list N.
Variable IPNet_Contains : IPNet → list N → bool.

Local Abbreviation expand := (expand_loop IPNet_Contains).
Local Abbreviation expand_prefix :=
  (expandNetworkPrefix ParseCIDR IP_Mask IPNet_Contains).
Local Abbreviation parse_targets :=
  (parseTargetIps ParseAddr ParseCIDR IP_Mask IPNet_Contains).


(** X15.  When the [n]-th address after the start is the first one outside
    the network, the loop ends, given more than [n] turns, with the [n]
    addresses before it, in order, leaving out those whose length is neither
    4 nor 16; more turns do not change the result. *)
Theorem expand_loop_addresses ipv4Net ip n fuel :
  (∀ k, (k < n)%nat → IPNet_Contains ipv4Net (nth_address ip k) = true) →
  IPNet_Contains ipv4Net (nth_address ip n) = false →
  (n < fuel)%nat →
  expand fuel ipv4Net ip = Some (omap AddrFromSlice (nth_address ip <$> seq 0 n)).
Proof.
  revert ip fuel. induction n as [|n IH]; intros ip fuel Hin Hout Hfuel.
  - destruct fuel as [|fuel]; [lia|]. simpl. simpl in Hout. by rewrite Hout.
  - destruct fuel as [|fuel]; [lia|]. cbn [expand_loop].
    pose proof (Hin 0%nat ltac:(lia)) as H0. unfold nth_address in H0. simpl in H0.
    rewrite H0.
    rewrite (IH (increment ip) fuel); [| | |lia].
    + assert (Hshift : nth_address (increment ip) <$> seq 0 n
                       = nth_address ip <$> seq 1 n).
      { rewrite <-(fmap_S_seq 0), <-list_fmap_compose.
        apply list_fmap_ext. intros i k _. apply nth_address_succ. }
      rewrite Hshift. cbn [seq fmap list_fmap omap list_omap mbind option_bind].
      change (nth_address ip 0) with ip.
      by destruct (AddrFromSlice ip).
    + intros k Hk. rewrite nth_address_succ. apply Hin. lia.
    + by rewrite nth_address_succ.
Qed.

(** X16.  A list of targets in which every entry is a single address is
    parsed to these addresses, in the order of the list, whatever the number
    of turns allowed for expansions: no prefix is expanded. *)
Theorem parseTargetIps_addresses fuel prefixes :
  Forall (λ prefix, is_Some (ParseAddr prefix)) prefixes →
  parseTargetIps ParseAddr ParseCIDR IP_Mask IPNet_Contains fuel prefixes
  = Some (Ok (omap ParseAddr prefixes)).
Proof.
  induction 1 as [|prefix prefixes [ip Hip] _ IH]; [done|].
  cbn [parseTargetIps omap list_omap]. by rewrite Hip, IH.
Qed.

(** X17.  The first entry that is neither an address nor a network prefix
    makes parseTargetIps return an error, whatever follows it, provided the
    entries before it are single addresses. *)
Theorem parseTargetIps_bad_entry fuel good bad rest :
  Forall (λ prefix, is_Some (ParseAddr prefix)) good →
  ParseAddr bad = None → ParseCIDR bad = None →
  ∃ msg,
    parseTargetIps ParseAddr ParseCIDR IP_Mask IPNet_Contains fuel (good ++ bad :: rest)
    = Some (Err msg).
Proof.
  intros Hgood Hbad Hcidr.
  induction Hgood as [|prefix good [ip Hip] _ (msg & IH)].
  - eexists. cbn [app parseTargetIps]. rewrite Hbad.
    unfold expandNetworkPrefix. by rewrite Hcidr.
  - exists msg. cbn [app parseTargetIps]. rewrite Hip.
    change (parseTargetIps ParseAddr ParseCIDR IP_Mask IPNet_Contains fuel
              (good ++ bad :: rest)) with (parse_targets fuel (good ++ bad :: rest)).
    by rewrite IH.
Qed.
End ExpandFacts.


Lemma expand_loop_addresses_witness :
  expand_loop example_Contains 10 (mkIPNet [10; 0; 0; 0]%N [255; 255; 255; 252]%N)
    [10; 0; 0; 0]%N
  = Some (omap AddrFromSlice (nth_address [10; 0; 0; 0]%N <$> seq 0 4)).
Proof.
  apply (expand_loop_addresses example_Contains
           (mkIPNet [10; 0; 0; 0]%N [255; 255; 255; 252]%N) [10; 0; 0; 0]%N 4 10).
  - intros k Hk. destruct k as [|[|[|[|k]]]]; try reflexivity. lia.
  - reflexivity.
  - lia.
Defined.

Lemma parseTargetIps_addresses_witness :
  parseTargetIps example_ParseAddr (λ _, None) (λ ip _, ip) (λ _ _, false) 0
    ["10.0.0.2"; "10.0.0.1"; "10.0.0.2"]
  = Some (Ok (omap example_ParseAddr ["10.0.0.2"; "10.0.0.1"; "10.0.0.2"])).
Proof.
  apply (parseTargetIps_addresses example_ParseAddr (λ _, None) (λ ip _, ip)
           (λ _ _, false) 0 ["10.0.0.2"; "10.0.0.1"; "10.0.0.2"]).
  repeat constructor; by eexists.
Defined.

Lemma parseTargetIps_bad_entry_witness :
  ∃ msg,
    parseTargetIps example_ParseAddr (λ _, None) (λ ip _, ip) (λ _ _, false) 0
      (["10.0.0.2"] ++ "10.0.0.300" :: ["10.0.0.1"])
    = Some (Err msg).
Proof.
  apply (parseTargetIps_bad_entry example_ParseAddr (λ _, None) (λ ip _, ip)
           (λ _ _, false) 0 ["10.0.0.2"] "10.0.0.300" ["10.0.0.1"]).
  - repeat constructor; by eexists.
  - reflexivity.
  - reflexivity.
Defined.

(** ** The session that the parser returns *)

Lemma Add_config addr sm :
  scrapeMetric (Add addr sm) = scrapeMetric sm ∧
  scrapePort (Add addr sm) = scrapePort sm ∧
  scrapeTimeoutSeconds (Add addr sm) = scrapeTimeoutSeconds sm ∧
  active (Add addr sm) = active sm.
Proof. unfold Add. by destruct (hosts sm !! addr). Qed.

Lemma Add_pristine addr sm : pristine sm → pristine (Add addr sm).
Proof.
  intros [Hact Hall]. split; [by rewrite (proj2 (proj2 (proj2 (Add_config addr sm))))|].
  unfold Add. destruct (hosts sm !! addr); [done|]. simpl.
  apply map_Forall_insert_2; [done|]. apply Hall.
Qed.

Lemma Add_config_in_range addr sm : config_in_range sm → config_in_range (Add addr sm).
Proof.
  unfold config_in_range. destruct (Add_config addr sm) as (_ & -> & -> & _). done.
Qed.

Lemma foldl_Add_invariant (P : SessionManager → Prop) ips sm :
  (∀ a sm, P sm → P (Add a sm)) → P sm → P (foldl (λ sm ip, Add ip sm) sm ips).
Proof.
  intros HP. revert sm. induction ips as [|a ips IH]; intros sm Hsm; simpl; [done|].
  apply IH. by apply HP.
Qed.

Lemma Start_heap_None sm p : heap sm !! p = None → heap (Start sm) !! p = None.
Proof.
  intros Hh. unfold Start. simpl.
  induction ((map_to_list (hosts sm)).*2) as [|q l IH]; simpl; [done|].
  rewrite lookup_alter. case_decide; subst; by rewrite IH.
Qed.

(** After the start every Host object of a well-formed manager has the
    scrape port; its other fields are as before. *)
Lemma Start_ports sm p h' :
  wf sm → heap (Start sm) !! p = Some h' →
  port h' = scrapePort sm ∧
  ∃ h, heap sm !! p = Some h ∧ ip h' = ip h ∧ base h' = base h ∧
       updated h' = updated h ∧ estimate h' = estimate h.
Proof.
  intros (_ & _ & Hc) Hh'.
  destruct (heap sm !! p) as [h|] eqn:Hh.
  - assert (Hin : p ∈ (map_to_list (hosts sm)).*2).
    { apply list_elem_of_fmap. exists (ip h, p). split; [done|].
      apply elem_of_map_to_list. by apply (Hc p h). }
    destruct (Start_heap_lookup sm p h Hh) as (h'' & Hh'' & ? & ? & ? & ?).
    rewrite Hh' in Hh''. injection Hh'' as <-.
    split; [|exists h; by split_and!].
    clear -Hin Hh'. unfold Start in Hh'. simpl in Hh'.
    revert h' Hh'. induction ((map_to_list (hosts sm)).*2) as [|q l IH];
      intros h' Hh'; [by apply elem_of_nil in Hin|].
    simpl in Hh'. rewrite lookup_alter in Hh'. case_decide as Hq.
    + subst q.
      match type of Hh' with
      | _ <$> ?m !! p = _ => destruct (m !! p) as [h0|]; [|done]
      end.
      by injection Hh' as <-.
    + apply IH; [|done]. apply elem_of_cons in Hin as [?|?]; [congruence|done].
  - by rewrite (Start_heap_None sm p Hh) in Hh'.
Qed.

Lemma uint16_range i : 0 ≤ uint16 i < 2 ^ 16.
Proof. unfold uint16. apply Z.mod_pos_bound. lia. Qed.

Lemma uint_range i :
  - 2 ^ 31 ≤ i ≤ 2 ^ 31 - 1 →
  0 ≤ uint i < 2 ^ 31 ∨ 2 ^ 64 - 2 ^ 31 ≤ uint i < 2 ^ 64.
Proof.
  intros Hi. unfold uint. destruct (decide (0 ≤ i)).
  - left. rewrite Z.mod_small; lia.
  - right. rewrite <-(Z.mod_add _ 1) by lia. rewrite Z.mod_small; lia.
Qed.

Section ParseFacts.
Variable ParseAddr : string → option (list N).
Variable ParseCIDR : string → option (list N * IPNet).
Variable IP_Mask : list N → list N → list N.
Variable IPNet_Contains : IPNet → list N → bool.

Local Abbreviation parse_line :=
  (parseSession_line ParseAddr ParseCIDR IP_Mask IPNet_Contains).
Local Abbreviation parse_block :=
  (parseSession_block ParseAddr ParseCIDR IP_Mask IPNet_Contains).
Local Abbreviation parse_session :=
  (parseSession ParseAddr ParseCIDR IP_Mask IPNet_Contains).
Local Abbreviation parse_targets :=
  (parseTargetIps ParseAddr ParseCIDR IP_Mask IPNet_Contains).

(** What a line of the block keeps, if it is accepted. *)
Lemma parseSession_line_invariant fuel key args s s' :
  parse_line fuel key args s = Some (Ok s') →
  hostname s' = hostname s ∧
  (wf (manager s) → wf (manager s')) ∧
  (pristine (manager s) → pristine (manager s')) ∧
  (config_in_range (manager s) → config_in_range (manager s')).
Proof.
  unfold parseSession_line. intros H.
  assert (H' : ∃ value,
    (if decide (key = sessionTargetIps) then
       r ← parse_targets fuel args;
       Some (ips ← r;
             Ok (set_manager (foldl (λ sm ip, Add ip sm) (manager s) ips) s))
     else if decide (key = sessionDomain) then Some (Ok (set_domain value s))
     else if decide (key = sessionScrapeMetric) then
       Some (Ok (set_manager (set_scrapeMetric value (manager s)) s))
     else if decide (key = sessionScrapePort) then
       Some (Ok (set_manager (set_scrapePort (uint16 (ParseInt value).1) (manager s)) s))
     else if decide (key = sessionScrapeTimeout) then
       Some (Ok (set_manager
                   (set_scrapeTimeoutSeconds (uint (ParseInt value).1) (manager s)) s))
     else Some (Err ("Unknown parameter: " +:+ key))) = Some (Ok s')).
  { destruct (checkSessionInputs key args); [| |done];
      (destruct (index0 args) as [value| |]; [|done..]); by exists value. }
  clear H. destruct H' as (value & H).
  repeat case_decide; simplify_eq/=.
  - destruct (parse_targets fuel args) as [[ips| |]|]; simplify_eq/=.
    split_and!; [done|..]; intros ?; apply foldl_Add_invariant;
      auto using wf_Add, Add_pristine, Add_config_in_range.
  - done.
  - done.
  - split_and!; try done. unfold config_in_range. simpl. intros [_ Ht].
    split; [|done]. apply uint16_range.
  - split_and!; try done. unfold config_in_range. simpl. intros [Hp _].
    split; [done|]. apply uint_range, ParseInt_range.
Qed.

Lemma parseSession_block_invariant fuel block s s' :
  parse_block fuel block s = Some (Ok s') →
  hostname s' = hostname s ∧
  (wf (manager s) → wf (manager s')) ∧
  (pristine (manager s) → pristine (manager s')) ∧
  (config_in_range (manager s) → config_in_range (manager s')).
Proof.
  revert s. induction block as [|[key args] block IH]; intros s H.
  { by simplify_eq/=. }
  simpl in H.
  destruct (parse_line fuel key args s) as [[s1| |]|] eqn:Hline; simplify_eq/=.
  destruct (parseSession_line_invariant _ _ _ _ _ Hline) as (? & ? & ? & ?).
  destruct (IH _ H) as (? & ? & ? & ?).
  split_and!; [congruence|auto..].
Qed.

(** X18.  Whatever the configuration is, a session that parseSession
    returns has a port in the range of uint16 and a timeout that is below
    2^31 seconds or, when the number given is negative, within 2^31 of 2^64
    seconds: ports and negative timeouts wrap around, they are not
    rejected. *)
Theorem parseSession_config_in_range fuel args block s :
  parse_session fuel args block = Some (Ok s) → config_in_range (manager s).
Proof.
  unfold parseSession. destruct (negb (length args =? 2)%nat); [done|].
  match goal with
  | |- context [parse_block fuel block ?s0] =>
      destruct (parse_block fuel block s0) as [[s1| |]|] eqn:Hblock
  end; intros Hs; simplify_eq/=.
  apply parseSession_block_invariant in Hblock as (_ & _ & _ & Hr).
  apply Hr. unfold config_in_range. simpl. unfold DefaultTimeoutSeconds. lia.
Qed.

(** X19.  A session that parseSession returns is ready and untouched: its
    manager is well formed, no host is active, its hostname is the second
    argument of the directive, and every Host object has the scrape port of
    the configuration, wherever the line of the port stands in the block,
    with base and estimate 0 and the time of the epoch. *)
Theorem parseSession_fresh fuel args block s :
  parse_session fuel args block = Some (Ok s) →
  wf (manager s) ∧ active (manager s) = ∅ ∧
  args !! 1%nat = Some (hostname s) ∧
  map_Forall
    (λ _ h, port h = scrapePort (manager s) ∧ base h = Float32.zero ∧
            estimate h = Float32.zero ∧ updated h = Unix 0 0)
    (heap (manager s)).
Proof.
  unfold parseSession. destruct (length args =? 2)%nat eqn:Hlen; [|done]. simpl.
  match goal with
  | |- context [parse_block fuel block ?s0] =>
      destruct (parse_block fuel block s0) as [[s1| |]|] eqn:Hblock
  end; intros Hs; simplify_eq/=.
  apply parseSession_block_invariant in Hblock as (Hhost & Hwf & Hpr & _).
  specialize (Hwf wf_NewSessionManager).
  destruct Hpr as [Hact Hall].
  { split; [done|]. apply map_Forall_empty. }
  split_and!.
  - by apply wf_Start.
  - done.
  - rewrite Hhost. simpl. apply Nat.eqb_eq in Hlen.
    destruct args as [|a [|b [|c args]]]; simplify_eq/=. done.
  - intros p h' Hh'. destruct (Start_ports _ _ _ Hwf Hh') as (Hport & h & Hh & ? & ? & ? & ?).
    destruct (Hall p h Hh) as (_ & ? & ? & ?). split_and!; congruence.
Qed.

(** X20.  The first answers after the setup: as no host is active yet, a
    call of GetIPs on the manager of a session that parseSession returns
    answers with every registered address once, and leaves the manager as it
    is. *)
Theorem parseSession_then_GetIPs fuel args block s o o' rnd :
  parse_session fuel args block = Some (Ok s) →
  ∃ ips,
    GetIPs o o' rnd (manager s) = Ok (ips, manager s) ∧
    ips ≡ₚ AsSlice <$> (map_to_list (hosts (manager s))).*1.
Proof.
  unfold parseSession. destruct (length args =? 2)%nat eqn:Hlen; [|done]. simpl.
  match goal with
  | |- context [parse_block fuel block ?s0] =>
      destruct (parse_block fuel block s0) as [[s1| |]|] eqn:Hblock
  end; intros Hs; simplify_eq/=.
  apply parseSession_block_invariant in Hblock as (_ & _ & Hpr & _).
  destruct Hpr as [Hact _].
  { split; [done|]. apply map_Forall_empty. }
  rewrite GetIPs_degraded_run by done. eexists. split; [done|].
  by rewrite Shuffle_Permutation, range_order_Permutation.
Qed.
End ParseFacts.

Lemma parseSession_config_in_range_witness :
  ∃ s,
    example_parseSession ["session"; "www"]
      [(sessionScrapePort, ["70000"]); (sessionScrapeTimeout, ["-1"])] = Some (Ok s) ∧
    config_in_range (manager s).
Proof.
  eexists. split; [vm_compute; reflexivity|].
  eapply (parseSession_config_in_range example_ParseAddr (λ _, None) (λ ip _, ip)
            (λ _ _, false) 0 ["session"; "www"]
            [(sessionScrapePort, ["70000"]); (sessionScrapeTimeout, ["-1"])]).
  vm_compute. reflexivity.
Defined.

Example parseSession_wraps :
  ∃ s,
    example_parseSession ["session"; "www"]
      [(sessionScrapePort, ["70000"]); (sessionScrapeTimeout, ["-1"])] = Some (Ok s) ∧
    scrapePort (manager s) = 4464 ∧
    scrapeTimeoutSeconds (manager s) = 18446744073709551615.
Proof. eexists. split_and!; vm_compute; reflexivity. Qed.

Lemma parseSession_fresh_witness :
  ∃ s,
    example_parseSession ["session"; "www"]
      [(sessionTargetIps, ["10.0.0.1"; "10.0.0.2"]);
       (sessionScrapePort, ["9100"])] = Some (Ok s) ∧
    wf (manager s) ∧ active (manager s) = ∅ ∧
    ["session"; "www"] !! 1%nat = Some (hostname s) ∧
    map_Forall
      (λ _ h, port h = scrapePort (manager s) ∧ base h = Float32.zero ∧
              estimate h = Float32.zero ∧ updated h = Unix 0 0)
      (heap (manager s)).
Proof.
  eexists. split; [vm_compute; reflexivity|].
  eapply (parseSession_fresh example_ParseAddr (λ _, None) (λ ip _, ip)
            (λ _ _, false) 0 ["session"; "www"]
            [(sessionTargetIps, ["10.0.0.1"; "10.0.0.2"]);
             (sessionScrapePort, ["9100"])]).
  vm_compute. reflexivity.
Defined.

Lemma parseSession_then_GetIPs_witness :
  ∃ s,
    example_parseSession ["session"; "www"]
      [(sessionTargetIps, ["10.0.0.1"; "10.0.0.2"; "10.0.0.1"])] = Some (Ok s) ∧
    ∃ ips,
      GetIPs [] [] (λ i, i) (manager s) = Ok (ips, manager s) ∧
      ips ≡ₚ AsSlice <$> (map_to_list (hosts (manager s))).*1.
Proof.
  eexists. split; [vm_compute; reflexivity|].
  eapply (parseSession_then_GetIPs example_ParseAddr (λ _, None) (λ ip _, ip)
            (λ _ _, false) 0 ["session"; "www"]
            [(sessionTargetIps, ["10.0.0.1"; "10.0.0.2"; "10.0.0.1"])]).
  vm_compute. reflexivity.
Defined.

(** * Further properties of the handler *)

(** ** Names *)

Lemma TrimSuffix_dot_app s : TrimSuffix_dot (s ++ ".") = s.
Proof.
  induction s as [|c s IH]; [done|].
  change (TrimSuffix_dot (String c (s ++ "."))%string = String c s).
  cbn [TrimSuffix_dot]. rewrite IH. by destruct s.
Qed.

Lemma TrimSuffix_dot_cases s :
  s = TrimSuffix_dot s ∨ s = (TrimSuffix_dot s ++ ".")%string.
Proof.
  induction s as [|c s IH]; [by left|].
  destruct s as [|c' s'].
  - simpl. destruct (Ascii.eqb_spec c dot) as [->|]; [by right|by left].
  - change (TrimSuffix_dot (String c (String c' s')))
      with (String c (TrimSuffix_dot (String c' s'))).
    destruct IH as [IH|IH]; [left|right].
    + by rewrite <-IH.
    + change (String c (String c' s')
              = String c (TrimSuffix_dot (String c' s') ++ ".")). by rewrite <-IH.
Qed.

Lemma Split_dot_cons s : ∃ x r, Split_dot s = x :: r.
Proof.
  destruct s as [|c s]; simpl; [by eauto|].
  destruct (Ascii.eqb c dot); [by eauto|]. destruct (Split_dot s); by eauto.
Qed.

Lemma Join_Split_dot s : Join_dot (Split_dot s) = s.
Proof.
  unfold Join_dot. induction s as [|c s IH]; [done|]. cbn [Split_dot].
  destruct (Split_dot_cons s) as (x & r & Hs). rewrite Hs in *.
  destruct (Ascii.eqb_spec c dot) as [->|_].
  - change (String.concat "." ("" :: x :: r))
      with (String dot (String.concat "." (x :: r))). by rewrite IH.
  - rewrite <-IH. by destruct r.
Qed.

Lemma Split_dot_has_dot s x r :
  Split_dot s = x :: r →
  has_dot x = false ∧ has_dot s = match r with [] => false | _ => true end.
Proof.
  revert x r. induction s as [|c s IH]; intros x r; cbn [Split_dot has_dot].
  { by intros [= <- <-]. }
  destruct (Split_dot_cons s) as (x' & r' & Hs). rewrite Hs.
  destruct (IH _ _ Hs) as [Hx' Hr'].
  destruct (Ascii.eqb c dot) eqn:Hc; intros [= <- <-]; simpl.
  - done.
  - by rewrite Hc.
Qed.

Lemma Split_dot_app h d :
  has_dot h = false → Split_dot (h ++ "." ++ d) = h :: Split_dot d.
Proof.
  induction h as [|c h IH]; [done|]. cbn [has_dot]. intros [Hc Hh]%orb_false_elim.
  change (Split_dot (String c (h ++ "." ++ d))%string = String c h :: Split_dot d).
  cbn [Split_dot]. by rewrite Hc, IH.
Qed.

Lemma split_no_dot fqdn : has_dot (split fqdn).1 = false.
Proof.
  unfold split. destruct (Split_dot_cons (TrimSuffix_dot fqdn)) as (x & r & Hs).
  rewrite Hs. simpl. by destruct (Split_dot_has_dot _ _ _ Hs).
Qed.

(** X21.  What split makes of a name: the name less one dot at its end,
    if it has one, is the host name alone, with the empty domain, or the
    host name, a dot and the domain; the host name holds no dot, so it is
    the first label. *)
Theorem split_label fqdn :
  has_dot (split fqdn).1 = false ∧
  (fqdn = TrimSuffix_dot fqdn ∨ fqdn = (TrimSuffix_dot fqdn ++ ".")%string) ∧
  if has_dot (TrimSuffix_dot fqdn)
  then TrimSuffix_dot fqdn = ((split fqdn).1 ++ "." ++ (split fqdn).2)%string
  else TrimSuffix_dot fqdn = (split fqdn).1 ∧ (split fqdn).2 = "".
Proof.
  split_and!; [apply split_no_dot|apply TrimSuffix_dot_cases|]; unfold split.
  - pose proof (Join_Split_dot (TrimSuffix_dot fqdn)) as Hj.
    destruct (Split_dot_cons (TrimSuffix_dot fqdn)) as (x & r & Hs).
    destruct (Split_dot_has_dot _ _ _ Hs) as [_ ->]. rewrite Hs in *.
    destruct r as [|y r]; simpl.
    + split; [|done]. by rewrite <-Hj.
    + by rewrite <-Hj.
Qed.

(** X22.  A fully qualified name, a host name without a dot, a dot, a
    domain and the dot of the root, is split into this host name and this
    domain. *)
Theorem split_qualified h d :
  has_dot h = false → split (h ++ "." ++ d ++ ".") = (h, d).
Proof.
  intros Hh. unfold split.
  replace (h ++ "." ++ d ++ ".")%string with ((h ++ "." ++ d) ++ ".")%string.
  2:{ clear Hh. induction h as [|c h IH]; [done|].
      change (String c ((h ++ "." ++ d) ++ ".") = String c (h ++ "." ++ d ++ ".")).
      by rewrite IH. }
  rewrite TrimSuffix_dot_app, Split_dot_app by done.
  destruct (Split_dot_cons d) as (x & r & Hs).
  pose proof (Join_Split_dot d) as Hj. rewrite Hs in *. simpl.
  by rewrite Hj.
Qed.

Lemma split_qualified_witness : split "www.example.org." = ("www", "example.org").
Proof. apply (split_qualified "www" "example.org"). reflexivity. Defined.

(** ** The reply *)

(** X23.  A query of type A for the configured name is answered: with a
    well-formed manager ServeSession writes a reply, and does not panic; the
    reply has one record of type A per address that GetIPs returns, in this
    order, each with the name and the class of the query and the time to live
    of one second; the addresses are the active ones, or all of them if no
    host is active; the two maps of the manager are left as they are. *)
Theorem ServeSession_reply o o' rnd lb s state :
  session lb = Some s → wf (manager s) →
  QType state = TypeA →
  (split (Name state)).1 = hostname s →
  domain s = "" ∨ (split (Name state)).2 = domain s →
  ∃ answers sm',
    ServeSession o o' rnd lb state
    = Ok (WriteMsg answers, mkLoadBalance (Some (set_manager sm' s))) ∧
    GetIPs o o' rnd (manager s) = Ok (rr_A <$> answers, sm') ∧
    Forall (answers_query state) answers ∧
    rr_A <$> answers ≡ₚ
      AsSlice <$> (map_to_list (if decide (active (manager s) = ∅)
                                then hosts (manager s) else active (manager s))).*1 ∧
    hosts sm' = hosts (manager s) ∧ active sm' = active (manager s).
Proof.
  intros Hs Hwf Hq Hh Hd.
  destruct (GetIPs_answer o o' rnd (manager s) Hwf) as (ips & sm' & Hget & Hperm).
  unfold ServeSession. destruct (split (Name state)) as [hn dn]. simpl in Hh, Hd.
  rewrite Hs. simpl. rewrite Hq, Z.eqb_refl. simpl.
  rewrite (bool_decide_eq_true_2 _ Hh).
  assert (bool_decide (domain s = "") || bool_decide (dn = domain s) = true) as ->.
  { destruct Hd as [Hd|Hd]; rewrite (bool_decide_eq_true_2 _ Hd); [done|].
    apply orb_true_r. }
  simpl. rewrite Hget. simpl. eexists _, sm'. split; [reflexivity|].
  assert (rr_A <$> ((λ ip, mkRR_A (QName state) TypeA (QClass state) 1 ip) <$> ips) = ips)
    as Hips.
  { rewrite <-list_fmap_compose. apply list_fmap_id. }
  rewrite Hips. split_and!; [done| |done|..].
  - apply Forall_fmap, Forall_forall. by intros ip _.
  - by destruct (GetIPs_heap _ _ _ _ _ _ Hget) as [->|(q & ->)].
  - by destruct (GetIPs_heap _ _ _ _ _ _ Hget) as [->|(q & ->)].
Qed.

Lemma ServeSession_reply_witness :
  let s := mkSessionLoadBalancer "www" "" sm_nan in
  let state := mkRequest "www.example.org." "www.example.org." TypeA 1 in
  ∃ answers sm',
    ServeSession [2; 0; 0]%nat [] (λ i, i) (mkLoadBalance (Some s)) state
    = Ok (WriteMsg answers, mkLoadBalance (Some (set_manager sm' s))) ∧
    GetIPs [2; 0; 0]%nat [] (λ i, i) (manager s) = Ok (rr_A <$> answers, sm') ∧
    Forall (answers_query state) answers ∧
    rr_A <$> answers ≡ₚ
      AsSlice <$> (map_to_list (if decide (active (manager s) = ∅)
                                then hosts (manager s) else active (manager s))).*1 ∧
    hosts sm' = hosts (manager s) ∧ active sm' = active (manager s).
Proof.
  intros s state.
  apply (ServeSession_reply [2; 0; 0]%nat [] (λ i, i) (mkLoadBalance (Some s)) s state).
  - reflexivity.
  - apply (bool_decide_unpack _). vm_compute. exact I.
  - reflexivity.
  - reflexivity.
  - left. reflexivity.
Defined.

(** X24.  A configured host name that holds a dot matches no query: the
    host name that split takes from the name of a query is its first label,
    so every query is handed to the next plugin and the load balancer stays
    as it is. *)
Theorem ServeSession_dotted_hostname o o' rnd lb s state :
  session lb = Some s → has_dot (hostname s) = true →
  ServeSession o o' rnd lb state = Ok (NextOrFailure, lb).
Proof.
  intros Hs Hdot. pose proof (split_no_dot (Name state)) as Hno.
  unfold ServeSession. destruct (split (Name state)) as [hn dn]. simpl in Hno.
  rewrite Hs. simpl. destruct (negb (QType state =? TypeA)); [done|].
  rewrite bool_decide_eq_false_2; [done|]. intros ->. congruence.
Qed.

Lemma ServeSession_dotted_hostname_witness :
  ServeSession [] [] (λ i, i)
    (mkLoadBalance (Some (mkSessionLoadBalancer "www.example.org" "" sm_three)))
    (mkRequest "www.example.org." "www.example.org." TypeA 1)
  = Ok (NextOrFailure,
        mkLoadBalance (Some (mkSessionLoadBalancer "www.example.org" "" sm_three))).
Proof.
  apply (ServeSession_dotted_hostname [] [] (λ i, i)
           (mkLoadBalance (Some (mkSessionLoadBalancer "www.example.org" "" sm_three)))
           (mkSessionLoadBalancer "www.example.org" "" sm_three)
           (mkRequest "www.example.org." "www.example.org." TypeA 1));
    reflexivity.
Defined.
